(** * buildkit solver: execution operation and vertex progress notification

    A shallow embedding of [solver/exec.go] (the [execOp] operation:
    [CacheKey], [Run], [ContentKeys]) and of [solver/vertex.go] (the
    progress notification protocol of a [vertex]), followed by the
    properties of these functions.

    Conventions.
    - Go slices are lists; a nil slice and an empty slice are both [[]].
    - A Go call has three possible outcomes: a value, an [error], or a
      run-time panic (index out of range); see [result].
    - Collaborators that live outside the two source files (the JSON
      encoder, the digest function, the content hasher, the cache manager
      and the worker) are parameters: pure ones are fields of the class
      [Externals], stateful ones are fields of the [execOp] record, as in
      the source.
    - Goroutines and locks are not modelled: every function is a
      sequential run of its body. *)

From Stdlib Require Import ZArith String Ascii List Lia Bool.
From stdpp Require Import base tactics option list sorting gmap strings pretty.

Local Open Scope Z_scope.
Local Open Scope string_scope.
Local Open Scope list_scope.

(** ** Go strings: the byte-wise order [<] *)

Module GoString.

Definition lt (a b : string) : Prop := String.ltb a b = true.

Lemma ascii_compare_refl c : Ascii.compare c c = Eq.
Proof. unfold Ascii.compare. apply N.compare_refl. Qed.

Lemma ascii_compare_lt_trans a b c :
  Ascii.compare a b = Lt → Ascii.compare b c = Lt → Ascii.compare a c = Lt.
Proof.
  unfold Ascii.compare. rewrite !N.compare_lt_iff. apply N.lt_trans.
Qed.

Lemma compare_refl s : String.compare s s = Eq.
Proof.
  induction s as [|c s IH]; simpl; [done|].
  by rewrite ascii_compare_refl.
Qed.

Lemma compare_lt_trans a b c :
  String.compare a b = Lt → String.compare b c = Lt → String.compare a c = Lt.
Proof.
  revert b c. induction a as [|x a IH]; intros [|y b] [|z c]; simpl; try done.
  destruct (Ascii.compare x y) eqn:Hxy; try done.
  - apply Ascii.compare_eq_iff in Hxy as ->.
    destruct (Ascii.compare y z) eqn:Hyz; try done. apply IH.
  - destruct (Ascii.compare y z) eqn:Hyz; try done.
    + apply Ascii.compare_eq_iff in Hyz as <-. by rewrite Hxy.
    + by rewrite (ascii_compare_lt_trans _ _ _ Hxy Hyz).
Qed.

Lemma lt_irrefl s : ¬ lt s s.
Proof. unfold lt, String.ltb. by rewrite compare_refl. Qed.

Lemma lt_trans a b c : lt a b → lt b c → lt a c.
Proof.
  unfold lt, String.ltb. intros Hab Hbc.
  destruct (String.compare a b) eqn:H1; try done.
  destruct (String.compare b c) eqn:H2; try done.
  by rewrite (compare_lt_trans _ _ _ H1 H2).
Qed.

Lemma lt_asym a b : lt a b → lt b a → False.
Proof. intros H1 H2. exact (lt_irrefl a (lt_trans _ _ _ H1 H2)). Qed.

Lemma lt_total a b : lt a b ∨ a = b ∨ lt b a.
Proof.
  unfold lt, String.ltb. rewrite (String.compare_antisym b a).
  destruct (String.compare a b) eqn:H; simpl; auto.
  right; left. by apply String.compare_eq_iff.
Qed.

End GoString.

(** ** [sort.Slice]

    [sort.Slice(s, less)] sorts in place and is not guaranteed to be
    stable.  On a short slice (up to 12 elements, up to 6 before Go 1.19)
    the Go library runs [insertionSort] alone, which is what the model
    does on every slice:
<<
    for i := a + 1; i < b; i++ {
        for j := i; j > a && less(j, j-1); j-- { swap(j, j-1) }
    }
>>
    [sink x p] is the inner loop: [p] is the already sorted prefix, last
    element first, and [x] moves towards the front while it is [less]
    than its left neighbour.  On a longer slice the library returns a
    sorted permutation too, possibly with equal elements in another
    order. *)

Section sort_Slice.
Context {A : Type} (less : A → A → bool).

Fixpoint sink (x : A) (p : list A) : list A :=
  match p with
  | [] => [x]
  | y :: ys => if less x y then y :: sink x ys else x :: y :: ys
  end.

Fixpoint insertionSort (p : list A) (l : list A) : list A :=
  match l with
  | [] => reverse p
  | x :: l' => insertionSort (sink x p) l'
  end.

Definition sort_Slice (l : list A) : list A := insertionSort [] l.

(** the order the result is in: no later element is [less] than an
    earlier one *)
Definition inOrder (a b : A) : Prop := less b a = false.

Lemma sink_Permutation x p : sink x p ≡ₚ x :: p.
Proof.
  induction p as [|y ys IH]; simpl; [done|].
  destruct (less x y); [|done]. rewrite IH. apply perm_swap.
Qed.

Lemma insertionSort_Permutation p l : insertionSort p l ≡ₚ p ++ l.
Proof.
  revert p. induction l as [|x l IH]; intros p; simpl.
  - by rewrite app_nil_r, reverse_Permutation.
  - rewrite IH, sink_Permutation. simpl. apply Permutation_middle.
Qed.

Lemma sort_Slice_Permutation l : sort_Slice l ≡ₚ l.
Proof. apply insertionSort_Permutation. Qed.

Lemma elem_of_sort_Slice x l : x ∈ sort_Slice l ↔ x ∈ l.
Proof. by rewrite sort_Slice_Permutation. Qed.

Lemma length_sort_Slice l : length (sort_Slice l) = length l.
Proof. by rewrite sort_Slice_Permutation. Qed.

Lemma StronglySorted_reverse (R : relation A) p :
  StronglySorted R p → StronglySorted (flip R) (reverse p).
Proof.
  induction 1 as [|x p Hp IH Hx]; [constructor|].
  rewrite reverse_cons.
  apply StronglySorted_app_2; [|done|repeat constructor].
  intros a b Ha Hb. apply list_elem_of_singleton in Hb as ->.
  rewrite Forall_forall in Hx. apply Hx. by apply elem_of_reverse.
Qed.

Section order.
(** [less] is a strict weak order, as [sort.Slice] requires *)
Hypothesis less_asym : ∀ a b, less a b = true → less b a = false.
Hypothesis less_negtrans :
  ∀ a b c, less a b = false → less b c = false → less a c = false.

Lemma sink_sorted x p :
  StronglySorted (λ a b, less a b = false) p →
  StronglySorted (λ a b, less a b = false) (sink x p).
Proof.
  induction 1 as [|y ys Hys IH Hy]; simpl; [repeat constructor|].
  destruct (less x y) eqn:Hxy.
  - constructor; [done|].
    eapply Forall_forall. intros z Hz.
    rewrite sink_Permutation in Hz. apply elem_of_cons in Hz as [->|Hz].
    + by apply less_asym.
    + rewrite Forall_forall in Hy. by apply Hy.
  - constructor; [by constructor|].
    constructor; [done|].
    eapply Forall_impl; [exact Hy|]. simpl. intros z Hz.
    by apply (less_negtrans x y z).
Qed.

Lemma insertionSort_sorted p l :
  StronglySorted (λ a b, less a b = false) p →
  StronglySorted inOrder (insertionSort p l).
Proof.
  revert p. induction l as [|x l IH]; intros p Hp; simpl.
  - by apply StronglySorted_reverse in Hp.
  - by apply IH, sink_sorted.
Qed.

Lemma sort_Slice_sorted l : StronglySorted inOrder (sort_Slice l).
Proof. apply insertionSort_sorted. constructor. Qed.
End order.
End sort_Slice.

(** sorting commutes with a map that preserves the comparison *)
Lemma sink_fmap {A B} (f : A → B) (less : A → A → bool) (less' : B → B → bool) :
  (∀ a b, less' (f a) (f b) = less a b) →
  ∀ x p, f <$> sink less x p = sink less' (f x) (f <$> p).
Proof.
  intros Hf x p. induction p as [|y ys IH]; csimpl; [done|].
  rewrite Hf. destruct (less x y); csimpl; by rewrite ?IH.
Qed.

Lemma sort_Slice_fmap {A B} (f : A → B) (less : A → A → bool) (less' : B → B → bool) :
  (∀ a b, less' (f a) (f b) = less a b) →
  ∀ l, f <$> sort_Slice less l = sort_Slice less' (f <$> l).
Proof.
  intros Hf l. unfold sort_Slice.
  change (@nil B) with (f <$> @nil A). generalize (@nil A) as p.
  induction l as [|x l IH]; intros p; csimpl.
  - by rewrite fmap_reverse.
  - by rewrite <- (sink_fmap f less less' Hf), IH.
Qed.

(** ** Data model *)

(** [digest.Digest] is a Go string type; [[]byte] is a list of bytes. *)
Definition Digest : Type := string.
Definition bytes : Type := list Byte.byte.

Module pb.
(** Modelled from the spec: the operation definition [pb.ExecOp] with its
    [pb.Meta] and [pb.Mount] (package [solver/pb], whose declarations are
    not among the source files).  The fields are the ones [exec.go]
    reads; the spec (DATA MODEL, "mount declaration") lists the same:
    an input edge index or a sentinel, a destination path, a readonly
    flag, a path selector and an output disposition. *)
Definition InputIndex : Type := Z.
Definition OutputIndex : Type := Z.

Record Meta : Type := {
  Args : list string;
  Env : list string;
  Cwd : string;
}.

Record Mount : Type := {
  Input : InputIndex;
  Selector : string;
  Dest : string;
  Output : OutputIndex;
  Readonly : bool;
}.

Record ExecOp : Type := {
  Meta_ : Meta;            (* the field [Meta] *)
  Mounts : list Mount;
}.
End pb.

(** Modelled from the spec: the interface [Reference] ("an opaque handle
    to stored content, polymorphic over {immutable, mutable}") and the
    values of it that [exec.go] creates.  A Go interface value may be nil.
    The number carried by [SharedClone] and [Active] is the rank of the
    allocation within one call of [Run], which makes every allocated
    reference distinct. *)
Inductive Reference : Type :=
  | Nil
  | Stored (id : nat)                       (* a storage-backed immutable reference *)
  | Foreign (id : nat)                      (* a reference of another kind *)
  | SharedClone (orig : Reference) (n : nat) (* newSharedRef(orig).Clone() *)
  | Active (n : nat)                        (* the mutable reference of cm.New *)
  | Committed (n : nat).                    (* the immutable reference of (Active n).Commit *)

Global Instance Reference_eq_dec : EqDecision Reference.
Proof. solve_decision. Defined.

(** Modelled from the spec: [toImmutableRef] (package [solver], not among
    the source files) succeeds exactly on the references "of the expected
    storage-backed kind". *)
Definition toImmutableRef (r : Reference) : option Reference :=
  match r with
  | Stored _ | SharedClone _ _ | Committed _ => Some r
  | Nil | Foreign _ | Active _ => None
  end.

(** [o.(cache.MutableRef)] *)
Definition asMutableRef (r : Reference) : option nat :=
  match r with Active n => Some n | _ => None end.

(** Go errors, by the place that creates them. *)
Inductive Error : Type :=
  | MissingInput (i : pb.InputIndex)          (* errors.Errorf("missing input %d", m.Input) *)
  | InvalidReferenceForExec (r : Reference)   (* errors.Errorf("invalid reference for exec %T", ..) *)
  | InvalidReference                          (* errors.Errorf("invalid reference") *)
  | WorkerFailed (args : list string) (cause : Error)
                                              (* errors.Wrapf(err, "worker failed running %v", meta.Args) *)
  | CommitFailed (r : Reference) (cause : Error)
                                              (* errors.Wrapf(err, "error committing %s", mutable.ID()) *)
  | External (msg : string).                  (* an error returned by a collaborator *)

(** run-time panics *)
Inductive RuntimePanic : Type :=
  | IndexOutOfRange (i : Z) (len : nat).

(** The outcome of a Go call: [(v, nil)], [(_, err)], or a panic. *)
Inductive result (A : Type) : Type :=
  | Ok (a : A)
  | Err (e : Error)
  | Panic (p : RuntimePanic).
Arguments Ok {A} a.
Arguments Err {A} e.
Arguments Panic {A} p.

Global Instance result_ret : MRet result := λ A a, Ok a.
Global Instance result_bind : MBind result := λ A B f m,
  match m with
  | Ok a => f a
  | Err e => Err e
  | Panic p => Panic p
  end.

(** [l[int(i)]], where [int] is as wide as [int64]: the conversion keeps
    the index, and an index that is negative or not below the length
    panics *)
Definition index {A} (l : list A) (i : Z) : result A :=
  match (if decide (0 ≤ i)%Z then l !! Z.to_nat i else None) with
  | Some a => Ok a
  | None => Panic (IndexOutOfRange i (length l))
  end.

(** a loop that builds a slice and stops at the first error or panic *)
Fixpoint forEach {A B} (f : A → result B) (l : list A) : result (list B) :=
  match l with
  | [] => Ok []
  | a :: l' => b ← f a; bs ← forEach f l'; Ok (b :: bs)
  end.

Module worker.
Record Meta : Type := {
  Args : list string;
  Env : list string;
  Cwd : string;
}.

Record Mount : Type := {
  Src : Reference;
  Dest : string;
  Readonly : bool;
  Selector : string;
}.

(** [Exec(ctx, meta, root, mounts, stdout, stderr) error] *)
Record Worker : Type := {
  Exec : Meta → Reference → list Mount → option Error;
}.
End worker.

Module cache.
(** The cache manager as [Run] sees it.  [New parent description n] is
    [cm.New(ctx, parent, cache.WithDescription(description))] when [n]
    references have been allocated so far in the call: [None] when it
    returns [Active n], or the error.  [Commit n] is
    [(Active n).Commit(ctx)]: [None] when it returns [Committed n], or
    the error. *)
Record Manager : Type := {
  New : Reference → string → nat → option Error;
  Commit : nat → option Error;
}.
End cache.

(** what [json.Marshal] is applied to: the two anonymous structs of
    [CacheKey] and [ContentKeys] *)
Inductive jsonValue : Type :=
  | CacheKeyRecord (Type_ : string) (Exec : pb.ExecOp)
  | ContentKeyRecord (Type_ : string) (Sources Inputs : list Digest) (Exec : pb.ExecOp).

(** The declarations and pure functions [exec.go] takes from other
    packages. *)
Class Externals : Type := {
  (** the constants of [solver/pb] *)
  pb_Empty : pb.InputIndex;
  pb_SkipOutput : pb.OutputIndex;
  pb_RootMount : string;
  (** [json.Marshal] *)
  json_Marshal : jsonValue → result bytes;
  (** [digest.FromBytes] *)
  digest_FromBytes : bytes → Digest;
  (** [contenthash.Checksum(ctx, ref, selector)] *)
  contenthash_Checksum : Reference → string → result Digest;
  (** [path.Join] *)
  path_Join : list string → string;
}.

Definition execCacheType : string := "buildkit.exec.v0".

Record execOp : Type := {
  op : pb.ExecOp;
  cm : cache.Manager;
  w : worker.Worker;
}.

(** ** Map iteration

    Go iterates over a map in an order chosen by the runtime.  The choice
    is an argument of the model: [mapRange iter l] is the order in which
    [for k := range m] visits the keys [l] of [m] under the choice [iter].
    Every [iter] gives a permutation of the keys and every permutation is
    given by some [iter] ([mapRange_Permutation], [mapRange_any_order]). *)

Fixpoint insertAt {A} (n : nat) (x : A) (l : list A) : list A :=
  match n, l with
  | S n', y :: l' => y :: insertAt n' x l'
  | _, _ => x :: l
  end.

Fixpoint mapRange {A} (iter : list nat) (l : list A) : list A :=
  match l with
  | [] => []
  | x :: l' => insertAt (hd 0%nat iter) x (mapRange (tl iter) l')
  end.

Lemma insertAt_Permutation {A} n (x : A) l : insertAt n x l ≡ₚ x :: l.
Proof.
  revert n. induction l as [|y l IH]; intros [|n]; simpl; try done.
  rewrite IH. apply perm_swap.
Qed.

Lemma mapRange_Permutation {A} iter (l : list A) : mapRange iter l ≡ₚ l.
Proof.
  revert iter. induction l as [|x l IH]; intros iter; simpl; [done|].
  by rewrite insertAt_Permutation, IH.
Qed.

Lemma insertAt_app {A} (x : A) l1 l2 : insertAt (length l1) x (l1 ++ l2) = l1 ++ x :: l2.
Proof.
  induction l1 as [|y l1 IH]; simpl; [by destruct l2|]. by rewrite IH.
Qed.

Lemma mapRange_any_order {A} (l l' : list A) : l ≡ₚ l' → ∃ iter, mapRange iter l = l'.
Proof.
  revert l'. induction l as [|x l IH]; intros l' Hp.
  - apply Permutation_nil in Hp as ->. by exists [].
  - assert (x ∈ l') as Hx by (rewrite <- Hp; left).
    apply list_elem_of_split in Hx as (l1 & l2 & ->).
    apply Permutation_cons_app_inv in Hp.
    destruct (IH _ Hp) as [iter Hiter].
    exists (length l1 :: iter). simpl. rewrite Hiter. apply insertAt_app.
Qed.

(** ** [exec.go] *)

Section exec.
Context `{Externals}.

(** *** CacheKey *)

Definition CacheKey (e : execOp) : result Digest :=
  dt ← json_Marshal (CacheKeyRecord execCacheType (op e));
  Ok (digest_FromBytes dt).

(** *** ContentKeys *)

(** [type src struct { index pb.InputIndex; selector string }] *)
Definition src : Type := pb.InputIndex * string.

(** the variables of the first loop *)
Record classification : Type := {
  srcsMap : gset src;
  skipped : list Z;
  skip : bool;
}.

Definition qualifies (m : pb.Mount) : bool :=
  bool_decide (pb.Input m ≠ pb_Empty)
  && bool_decide (pb.Dest m ≠ pb_RootMount) && pb.Readonly m.

Definition srcOf (m : pb.Mount) : src :=
  (pb.Input m, path_Join ["/"; pb.Selector m]).

Definition classifyMount (c : classification) (m : pb.Mount) : classification :=
  if decide (pb.Input m ≠ pb_Empty) then
    if bool_decide (pb.Dest m ≠ pb_RootMount) && pb.Readonly m then
      {| srcsMap := {[ srcOf m ]} ∪ srcsMap c; skipped := skipped c; skip := false |}
    else
      {| srcsMap := srcsMap c; skipped := skipped c ++ [pb.Input m]; skip := skip c |}
  else c.

Definition classify (ms : list pb.Mount) : classification :=
  foldl classifyMount {| srcsMap := ∅; skipped := []; skip := true |} ms.

(** the [less] function of the second [sort.Slice] *)
Definition srcLess (a b : src) : bool :=
  if decide (a.1 = b.1) then String.ltb a.2 b.2 else bool_decide (a.1 < b.1)%Z.

Definition sortedSrcs (ms : list pb.Mount) (iter : list nat) : list src :=
  sort_Slice srcLess (mapRange iter (elements (srcsMap (classify ms)))).

(** the body of one task of the error group *)
Definition checksumTask (s : src) (ref : Reference) : result Digest :=
  match toImmutableRef ref with
  | None => Err InvalidReference
  | Some ref => contenthash_Checksum ref s.2
  end.

(** The third loop and [eg.Wait()].  The argument [refs[int(s.index)]]
    of every task is evaluated by the loop itself, so an index out of
    range panics there, whatever the tasks started before do.  [Wait]
    returns the error of one failed task; with several failed tasks
    the model returns the first in the order of [srcs]. *)
Definition contentChecksums (srcs : list src) (refs : list Reference) : result (list Digest) :=
  args ← forEach (λ s : src, index refs s.1) srcs;
  forEach (λ sr : src * Reference, checksumTask sr.1 sr.2) (zip srcs args).

(** one round of the last loop *)
Definition refinedKey (e : execOp) (dgsts : list Digest) (skipped : list Z)
    (cacheKeys : list Digest) : result Digest :=
  inputKeys ← forEach (index cacheKeys) skipped;
  dt ← json_Marshal (ContentKeyRecord execCacheType dgsts inputKeys (op e));
  Ok (digest_FromBytes dt).

Definition ContentKeys (e : execOp) (iter : list nat)
    (inputs : list (list Digest)) (refs : list Reference) : result (list Digest) :=
  if decide (length refs = 0%nat) then Ok [] else
  let c := classify (pb.Mounts (op e)) in
  if skip c then Ok [] else
  let srcs := sortedSrcs (pb.Mounts (op e)) iter in
  dgsts ← contentChecksums srcs refs;
  forEach (refinedKey e dgsts (skipped c)) inputs.
End exec.


(** *** Run

    [Run] talks to the cache manager and the worker and schedules releases;
    the model records these effects, in order, in a trace. *)

Inductive Event : Type :=
  | EvClone (r : Reference)     (* newSharedRef(ref).Clone() returned r *)
  | EvNew (r : Reference)       (* e.cm.New returned r *)
  | EvExec (meta : worker.Meta) (root : Reference) (mounts : list worker.Mount)
                                (* e.w.Exec was called with these arguments *)
  | EvCommit (m r : Reference)  (* m.Commit returned r *)
  | EvRelease (r : Reference).  (* the deferred function ran go r.Release(ctx) *)

(** the local variables of [Run], the number of references allocated so
    far and the trace *)
Record runState : Type := {
  mounts : list worker.Mount;
  outputs : list Reference;
  root : Reference;
  allocated : nat;
  trace : list Event;
}.

(** a computation on the state of [Run] that returns, fails or panics;
    the state at that point is what the deferred function sees *)
Definition run (A : Type) : Type := runState → result A * runState.

Global Instance run_ret : MRet run := λ A a s, (Ok a, s).
Global Instance run_bind : MBind run := λ A B f m s,
  match m s with
  | (Ok a, s') => f a s'
  | (Err e, s') => (Err e, s')
  | (Panic p, s') => (Panic p, s')
  end.

Definition lift {A} (r : result A) : run A := λ s, (r, s).
Definition throw {A} (e : Error) : run A := lift (Err e).
Definition gets {A} (f : runState → A) : run A := λ s, (Ok (f s), s).
Definition modify (f : runState → runState) : run unit := λ s, (Ok (), f s).

Fixpoint forM_ {A} (f : A → run unit) (l : list A) : run unit :=
  match l with
  | [] => mret ()
  | a :: l' => f a;; forM_ f l'
  end.

(** the assignments to the local variables *)
Definition appendOutput (r : Reference) (ev : Event) (s : runState) : runState :=
  {| mounts := mounts s; outputs := outputs s ++ [r]; root := root s;
     allocated := S (allocated s); trace := trace s ++ [ev] |}.
Definition setRoot (r : Reference) (s : runState) : runState :=
  {| mounts := mounts s; outputs := outputs s; root := r;
     allocated := allocated s; trace := trace s |}.
Definition setMounts (ms : list worker.Mount) (s : runState) : runState :=
  {| mounts := ms; outputs := outputs s; root := root s;
     allocated := allocated s; trace := trace s |}.
Definition setOutputs (os : list Reference) (s : runState) : runState :=
  {| mounts := mounts s; outputs := os; root := root s;
     allocated := allocated s; trace := trace s |}.
Definition emit (evs : list Event) (s : runState) : runState :=
  {| mounts := mounts s; outputs := outputs s; root := root s;
     allocated := allocated s; trace := trace s ++ evs |}.

Section Run.
Context `{Externals}.

(** [fmt.Sprintf("mount %s from exec %s", m.Dest, strings.Join(e.op.Meta.Args, " "))] *)
Definition description (e : execOp) (m : pb.Mount) : string :=
  "mount " +:+ pb.Dest m +:+ " from exec " +:+ String.concat " " (pb.Args (pb.Meta_ (op e))).

(** the body of the loop over [e.op.Mounts] *)
Definition mountStep (e : execOp) (inputs : list Reference) (m : pb.Mount) : run unit :=
  ref ← lift (
    if decide (pb.Input m ≠ pb_Empty) then
      if decide (Z.of_nat (length inputs) < pb.Input m)%Z then
        Err (MissingInput (pb.Input m))
      else
        inp ← index inputs (pb.Input m);
        match toImmutableRef inp with
        | None => Err (InvalidReferenceForExec inp)
        | Some ref => Ok ref
        end
    else Ok Nil);
  mountable ← (
    if decide (pb.Output m ≠ pb_SkipOutput) then
      n ← gets allocated;
      if pb.Readonly m && bool_decide (ref ≠ Nil) && bool_decide (pb.Dest m ≠ pb_RootMount) then
        modify (appendOutput (SharedClone ref n) (EvClone (SharedClone ref n)));;
        mret ref
      else
        match cache.New (cm e) ref (description e m) n with
        | Some err => throw err
        | None =>
            modify (appendOutput (Active n) (EvNew (Active n)));;
            mret (Active n)
        end
    else mret ref);
  if decide (pb.Dest m = pb_RootMount) then
    modify (setRoot mountable)
  else
    modify (λ s, setMounts (mounts s ++
      [ {| worker.Src := mountable; worker.Dest := pb.Dest m;
           worker.Readonly := pb.Readonly m; worker.Selector := pb.Selector m |} ]) s).

(** the [less] function of the first [sort.Slice] *)
Definition mountLess (a b : worker.Mount) : bool :=
  String.ltb (worker.Dest a) (worker.Dest b).

(** The loop [for i, o := range outputs]: [os] is what is left of the
    slice the [range] clause evaluated, [i] the index of its head. *)
Fixpoint commitLoop (e : execOp) (i : nat) (os : list Reference)
    (refs : list Reference) : run (list Reference) :=
  match os with
  | [] => mret refs
  | o :: os' =>
      refs' ← match asMutableRef o with
              | Some n =>
                  match cache.Commit (cm e) n with
                  | Some err => throw (CommitFailed o err)
                  | None =>
                      modify (emit [EvCommit o (Committed n)]);;
                      mret (refs ++ [Committed n])
                  end
              | None => mret (refs ++ [o])
              end;
      modify (λ s, setOutputs (<[i := Nil]> (outputs s)) s);;
      commitLoop e (S i) os' refs'
  end.

Definition runBody (e : execOp) (inputs : list Reference) : run (list Reference) :=
  forM_ (mountStep e inputs) (pb.Mounts (op e));;
  modify (λ s, setMounts (sort_Slice mountLess (mounts s)) s);;
  let meta := {| worker.Args := pb.Args (pb.Meta_ (op e));
                 worker.Env := pb.Env (pb.Meta_ (op e));
                 worker.Cwd := pb.Cwd (pb.Meta_ (op e)) |} in
  root ← gets root;
  mounts ← gets mounts;
  modify (emit [EvExec meta root mounts]);;
  match worker.Exec (w e) meta root mounts with
  | Some err => throw (WorkerFailed (worker.Args meta) err)
  | None =>
      outputs ← gets outputs;
      commitLoop e 0 outputs []
  end.

(** the variables of [Run] when the call starts *)
Definition initial : runState :=
  {| mounts := []; outputs := []; root := Nil; allocated := 0; trace := [] |}.

(** the deferred function: [go o.Release(ctx)] for every non-nil output *)
Definition releaseOutputs (s : runState) : list Event :=
  EvRelease <$> filter (λ o, o ≠ Nil) (outputs s).

(** [Run]: what the call returns and the trace of its effects, the
    deferred releases last.  The log streams of the call are not
    modelled. *)
Definition Run (e : execOp) (inputs : list Reference) : result (list Reference) * list Event :=
  let '(r, s) := runBody e inputs initial in
  (r, trace s ++ releaseOutputs s).

(** the projections of a trace the claims speak of *)
Definition released (tr : list Event) : list Reference :=
  omap (λ ev, match ev with EvRelease r => Some r | _ => None end) tr.
Definition allocatedRefs (tr : list Event) : list Reference :=
  omap (λ ev, match ev with
              | EvClone r | EvNew r | EvCommit _ r => Some r
              | _ => None
              end) tr.
Definition workerMounts (tr : list Event) : list (list worker.Mount) :=
  omap (λ ev, match ev with EvExec _ _ ms => Some ms | _ => None end) tr.
End Run.

(** ** [vertex.go]

    Vertices live on the heap and point at their inputs; [ptr] is such a
    pointer and [heap] gives the struct behind it.  [time.Time] is a
    reading of the clock, which every [time.Now()] advances.  The locks
    [mu] and [notifyMu] are not modelled, and the fields [sys] and [err],
    which the notification functions do not read, are left out. *)

Definition ptr : Type := nat.
Definition Time : Type := nat.

Module client.
Record Vertex : Type := {
  Inputs : list Digest;
  Digest : Digest;
  Name : string;
  Started : option Time;
  Completed : option Time;
  Cached : bool;
  Error : string;
}.
End client.

Record input : Type := {
  input_index : Z;
  input_vertex : ptr;
}.

Record vertex : Type := {
  inputs : list input;
  digest : Digest;
  clientVertex : client.Vertex;
  name : string;
}.

(** the heap, the clock and the progress events written so far, each
    with the id it was written under *)
Record world : Type := {
  heap : ptr → vertex;
  clock : Time;
  progress : list (string * client.Vertex);
}.

(** [time.Now()] *)
Definition tick (wd : world) : world :=
  {| heap := heap wd; clock := S (clock wd); progress := progress wd |}.

(** [v.clientVertex = cv] *)
Definition setClientVertex (v : ptr) (cv : client.Vertex) (wd : world) : world :=
  {| heap := λ p, if decide (p = v) then
                     {| inputs := inputs (heap wd p); digest := digest (heap wd p);
                        clientVertex := cv; name := name (heap wd p) |}
                   else heap wd p;
     clock := clock wd; progress := progress wd |}.

(** [pw.Write(id, cv)] *)
Definition pw_Write (id : string) (cv : client.Vertex) (wd : world) : world :=
  {| heap := heap wd; clock := clock wd; progress := progress wd ++ [(id, cv)] |}.

Definition setStarted (t : option Time) (cv : client.Vertex) : client.Vertex :=
  {| client.Digest := client.Digest cv; client.Inputs := client.Inputs cv;
     client.Name := client.Name cv; client.Started := t;
     client.Completed := client.Completed cv; client.Cached := client.Cached cv;
     client.Error := client.Error cv |}.
Definition setCompleted (t : option Time) (cv : client.Vertex) : client.Vertex :=
  {| client.Digest := client.Digest cv; client.Inputs := client.Inputs cv;
     client.Name := client.Name cv; client.Started := client.Started cv;
     client.Completed := t; client.Cached := client.Cached cv;
     client.Error := client.Error cv |}.
Definition setCached (b : bool) (cv : client.Vertex) : client.Vertex :=
  {| client.Digest := client.Digest cv; client.Inputs := client.Inputs cv;
     client.Name := client.Name cv; client.Started := client.Started cv;
     client.Completed := client.Completed cv; client.Cached := b;
     client.Error := client.Error cv |}.
Definition setError (e : string) (cv : client.Vertex) : client.Vertex :=
  {| client.Digest := client.Digest cv; client.Inputs := client.Inputs cv;
     client.Name := client.Name cv; client.Started := client.Started cv;
     client.Completed := client.Completed cv; client.Cached := client.Cached cv;
     client.Error := e |}.

(** [initClientVertex] *)
Definition initClientVertex (v : ptr) (wd : world) : world :=
  setClientVertex v
    {| client.Digest := digest (heap wd v);
       client.Inputs := (λ inp, digest (heap wd (input_vertex inp))) <$> inputs (heap wd v);
       client.Name := name (heap wd v);
       client.Started := None; client.Completed := None;
       client.Cached := false; client.Error := "" |} wd.

(** a loop over [v.inputs]; [None] when the body does not return *)
Fixpoint rangeInputs (body : input → world → option world) (l : list input)
    (wd : world) : option world :=
  match l with
  | [] => Some wd
  | inp :: l' => wd' ← body inp wd; rangeInputs body l' wd'
  end.

(** [notifyCompleted], given [recursiveMarkCached]; an error is passed as
    its text [err.Error()], [None] for nil *)
Definition notifyCompletedWith (recursiveMarkCached : ptr → world → option world)
    (v : ptr) (cached : bool) (err : option string) (wd : world) : option world :=
  let now := clock wd in
  wd ← recursiveMarkCached v (tick wd);
  let cv := clientVertex (heap wd v) in
  let cv := if client.Started cv is None then setStarted (Some now) cv else cv in
  let cv := setCached cached (setCompleted (Some now) cv) in
  let cv := if err is Some text then setError text cv else cv in
  Some (pw_Write (digest (heap wd v)) cv (setClientVertex v cv wd)).

(** [recursiveMarkCached] and [notifyCompleted] call each other, and the
    recursion follows the pointers of the graph: [fuel] bounds its depth,
    and the result is [None] when the bound is reached.  On an acyclic
    graph a large enough bound always exists ([recursiveMarkCached_returns]). *)
Fixpoint recursiveMarkCached (fuel : nat) (v : ptr) (wd : world) : option world :=
  match fuel with
  | O => None
  | S fuel' =>
      rangeInputs (λ inp wd,
        if client.Started (clientVertex (heap wd (input_vertex inp))) is None then
          wd ← recursiveMarkCached fuel' (input_vertex inp) wd;
          notifyCompletedWith (recursiveMarkCached fuel') (input_vertex inp) true None wd
        else Some wd) (inputs (heap wd v)) wd
  end.

Definition notifyCompleted (fuel : nat) (v : ptr) (cached : bool) (err : option string)
    (wd : world) : option world :=
  notifyCompletedWith (recursiveMarkCached fuel) v cached err wd.

Definition notifyStarted (fuel : nat) (v : ptr) (wd : world) : option world :=
  wd ← recursiveMarkCached fuel v wd;
  let now := clock wd in
  let wd := tick wd in
  let cv := setCompleted None (setStarted (Some now) (clientVertex (heap wd v))) in
  Some (pw_Write (digest (heap wd v)) cv (setClientVertex v cv wd)).

(** ** An environment to run the model in

    The examples below run the model with the constants as [solver/pb]
    declares them ([Empty] and [SkipOutput] are [-1], [RootMount] is
    ["/"]), the lexical [path.Join] of the Go library, an encoder that
    writes every field of a record, and a digest that keeps the bytes it
    is given, so that two digests are equal only if the bytes are.  The
    content behind a stored reference is given by [content]. *)

Module Example.

Fixpoint splitSlash (s : string) (cur : string) : list string :=
  match s with
  | EmptyString => [cur]
  | String c s' =>
      if Ascii.eqb c "/" then cur :: splitSlash s' ""
      else splitSlash s' (cur +:+ String c "")
  end.

(** one path element of [path.Clean]; [stack] holds the elements kept so
    far, the last one first *)
Definition cleanStep (rooted : bool) (stack : list string) (c : string) : list string :=
  if bool_decide (c = "") || bool_decide (c = ".") then stack
  else if bool_decide (c = "..") then
    match stack with
    | top :: rest => if bool_decide (top = "..") then c :: stack else rest
    | [] => if rooted then [] else [c]
    end
  else c :: stack.

Definition Clean (path : string) : string :=
  if bool_decide (path = "") then "." else
  let rooted := String.prefix "/" path in
  let body := String.concat "/" (reverse (foldl (cleanStep rooted) [] (splitSlash path ""))) in
  if rooted then "/" +:+ body
  else if bool_decide (body = "") then "." else body.

Definition Join (elems : list string) : string :=
  match filter (λ s, s ≠ "") elems with
  | [] => ""
  | ne => Clean (String.concat "/" ne)
  end.

Definition quoted (s : string) : string :=
  String (Ascii.ascii_of_nat 34) s +:+ String (Ascii.ascii_of_nat 34) "".
Definition array (l : list string) : string := "[" +:+ String.concat "," l +:+ "]".
Definition object (l : list (string * string)) : string :=
  "{" +:+ String.concat "," ((λ kv, quoted kv.1 +:+ ":" +:+ kv.2) <$> l) +:+ "}".

Definition encodeMount (m : pb.Mount) : string :=
  object [("input", pretty (pb.Input m)); ("selector", quoted (pb.Selector m));
          ("dest", quoted (pb.Dest m)); ("output", pretty (pb.Output m));
          ("readonly", if pb.Readonly m then "true" else "false")].

Definition encodeExecOp (o : pb.ExecOp) : string :=
  object [("meta", object [("args", array (quoted <$> pb.Args (pb.Meta_ o)));
                           ("env", array (quoted <$> pb.Env (pb.Meta_ o)));
                           ("cwd", quoted (pb.Cwd (pb.Meta_ o)))]);
          ("mounts", array (encodeMount <$> pb.Mounts o))].

Definition encode (v : jsonValue) : string :=
  match v with
  | CacheKeyRecord t o => object [("Type", quoted t); ("Exec", encodeExecOp o)]
  | ContentKeyRecord t srcs ins o =>
      object [("Type", quoted t); ("Sources", array (quoted <$> srcs));
              ("Inputs", array (quoted <$> ins)); ("Exec", encodeExecOp o)]
  end.

Fixpoint checksum (content : nat → string) (r : Reference) (selector : string) : result Digest :=
  match r with
  | Stored id => Ok ("sha256:" +:+ content id +:+ ":" +:+ selector)
  | SharedClone r' _ => checksum content r' selector
  | _ => Err (External "not found")
  end.

Definition env (content : nat → string) : Externals :=
  {| pb_Empty := -1;
     pb_SkipOutput := -1;
     pb_RootMount := "/";
     json_Marshal := λ v, Ok (list_byte_of_string (encode v));
     digest_FromBytes := λ b, "sha256:" +:+ string_of_list_byte b;
     contenthash_Checksum := checksum content;
     path_Join := Join |}.

(** a cache manager and a worker that never fail *)
Definition cm : cache.Manager :=
  {| cache.New := λ _ _ _, None; cache.Commit := λ _, None |}.
Definition w : worker.Worker :=
  {| worker.Exec := λ _ _ _, None |}.

End Example.

Example path_Join_examples :
  Example.Join ["/"; "app"] = "/app" ∧ Example.Join ["/"; ""] = "/" ∧
  Example.Join ["/"; "/a//b/./c/../d/"] = "/a/b/d" ∧ Example.Join ["/"; "../x"] = "/x".
Proof. by vm_compute. Qed.

(** * Properties *)

(** ** The classification of the mounts in [ContentKeys] *)

Section classify.
Context `{Externals}.

Lemma qualifies_spec (m : pb.Mount) :
  qualifies m = true ↔
  pb.Input m ≠ pb_Empty ∧ pb.Dest m ≠ pb_RootMount ∧ pb.Readonly m = true.
Proof.
  unfold qualifies. rewrite !andb_true_iff, !bool_decide_eq_true. tauto.
Qed.

Lemma classifyMount_qualifies c m :
  qualifies m = true →
  classifyMount c m =
    {| srcsMap := {[ srcOf m ]} ∪ srcsMap c; skipped := skipped c; skip := false |}.
Proof.
  intros Hq. pose proof Hq as (Hi & Hd & Hr)%qualifies_spec.
  unfold classifyMount. rewrite decide_True by done.
  by rewrite bool_decide_eq_true_2, Hr by done.
Qed.

Lemma classifyMount_not_qualifies c m :
  qualifies m = false →
  srcsMap (classifyMount c m) = srcsMap c ∧ skip (classifyMount c m) = skip c.
Proof.
  unfold qualifies, classifyMount. intros Hq.
  destruct (decide (pb.Input m ≠ pb_Empty)) as [Hi|Hi]; [|done].
  rewrite bool_decide_eq_true_2 in Hq by done. simpl in Hq.
  by rewrite Hq.
Qed.

Lemma skip_foldl_classifyMount c ms :
  skip (foldl classifyMount c ms) = skip c && forallb (λ m, negb (qualifies m)) ms.
Proof.
  revert c. induction ms as [|m ms IH]; intros c; simpl.
  - by rewrite andb_true_r.
  - rewrite IH. destruct (qualifies m) eqn:Hq; simpl.
    + rewrite classifyMount_qualifies by done. simpl. by rewrite andb_false_r.
    + by destruct (classifyMount_not_qualifies c m Hq) as [_ ->].
Qed.

Lemma elem_of_srcsMap_foldl c ms s :
  s ∈ srcsMap (foldl classifyMount c ms) ↔
  s ∈ srcsMap c ∨ ∃ m, m ∈ ms ∧ qualifies m = true ∧ s = srcOf m.
Proof.
  revert c. induction ms as [|m ms IH]; intros c; simpl.
  - split; [auto|]. intros [?|(m & Hm & _)]; [done|]. by apply elem_of_nil in Hm.
  - rewrite IH. destruct (qualifies m) eqn:Hq.
    + rewrite classifyMount_qualifies by done. simpl.
      rewrite elem_of_union, elem_of_singleton. split.
      * intros [[->|?]|(m' & Hm' & ?)]; [right|by left|right].
        -- exists m. split; [left|done].
        -- exists m'. split; [by right|done].
      * intros [?|(m' & Hm' & Hq' & ->)]; [by left; right|].
        apply elem_of_cons in Hm' as [->|Hm']; [by left; left|].
        right. by exists m'.
    + destruct (classifyMount_not_qualifies c m Hq) as [-> _]. split.
      * intros [?|(m' & Hm' & ?)]; [by left|right].
        exists m'. split; [by right|done].
      * intros [?|(m' & Hm' & Hq' & ->)]; [by left|].
        apply elem_of_cons in Hm' as [->|Hm']; [congruence|].
        right. by exists m'.
Qed.

Lemma elem_of_srcsMap_classify ms s :
  s ∈ srcsMap (classify ms) ↔ ∃ m, m ∈ ms ∧ qualifies m = true ∧ s = srcOf m.
Proof.
  unfold classify. rewrite elem_of_srcsMap_foldl. simpl.
  split; [|by right]. intros [Hs|?]; [|done]. by apply not_elem_of_empty in Hs.
Qed.

Lemma skip_classify ms :
  skip (classify ms) = true ↔ ∀ m, m ∈ ms → qualifies m = false.
Proof.
  unfold classify. rewrite skip_foldl_classifyMount. simpl.
  rewrite forallb_forall. split.
  - intros Hs m Hm. apply list_elem_of_In, Hs in Hm. by apply negb_true_iff.
  - intros Hs m Hm. apply negb_true_iff, Hs. by apply list_elem_of_In.
Qed.

End classify.

(** ** ContentKeys: when it does not apply *)

(** C10: with an empty list of resolved inputs, [ContentKeys] returns no
    refined keys and no error, whatever the mounts of the operation, the
    candidate key sets and the iteration order of the map are: the mounts
    are not looked at. *)
Theorem ContentKeys_no_refs `{Externals} (e : execOp) (iter : list nat)
    (inputs : list (list Digest)) :
  ContentKeys e iter inputs [] = Ok [].
Proof. reflexivity. Qed.

(** C8: when no mount has an input, a destination other than the root and
    the readonly flag all at once, [ContentKeys] returns an empty result
    and no error, for every candidate key set and every list of resolved
    inputs. *)
Theorem ContentKeys_not_applicable `{Externals} (e : execOp) (iter : list nat)
    (inputs : list (list Digest)) (refs : list Reference) :
  (∀ m, m ∈ pb.Mounts (op e) →
     ¬ (pb.Input m ≠ pb_Empty ∧ pb.Dest m ≠ pb_RootMount ∧ pb.Readonly m = true)) →
  ContentKeys e iter inputs refs = Ok [].
Proof.
  intros Hno. unfold ContentKeys.
  destruct (decide (length refs = 0%nat)); [done|].
  assert (skip (classify (pb.Mounts (op e))) = true) as ->; [|done].
  apply skip_classify. intros m Hm.
  destruct (qualifies m) eqn:Hq; [|done].
  apply qualifies_spec in Hq. by destruct (Hno m Hm).
Qed.

(** operations to run the model on *)
Module Ops.
Definition mount (i : Z) (sel dest : string) (o : Z) (ro : bool) : pb.Mount :=
  {| pb.Input := i; pb.Selector := sel; pb.Dest := dest; pb.Output := o; pb.Readonly := ro |}.
Definition make : pb.Meta :=
  {| pb.Args := ["make"; "all"]; pb.Env := ["PATH=/bin"]; pb.Cwd := "/" |}.
Definition exec (ms : list pb.Mount) : execOp :=
  {| op := {| pb.Meta_ := make; pb.Mounts := ms |}; cm := Example.cm; w := Example.w |}.

(** the content behind [Stored id]: references 1 and 2 hold the same bytes *)
Definition content (id : nat) : string :=
  match id with
  | 0 => "rootfs"
  | 1 | 2 => "sources"
  | _ => "other"
  end%nat.
Definition env : Externals := Example.env content.

(** a root mount and a read-write scratch mount *)
Definition rootAndScratch : execOp :=
  exec [mount 0 "" "/" 0 false; mount (-1) "" "/tmp" 1 false].
(** the end-to-end example of the specification *)
Definition endToEnd : execOp :=
  exec [mount 0 "" "/" 0 false; mount 1 "/app" "/src" (-1) true].
End Ops.

Lemma ContentKeys_not_applicable_witness :
  (∀ m, m ∈ pb.Mounts (op Ops.rootAndScratch) →
     ¬ (pb.Input m ≠ @pb_Empty Ops.env ∧ pb.Dest m ≠ @pb_RootMount Ops.env
        ∧ pb.Readonly m = true)) ∧
  @ContentKeys Ops.env Ops.rootAndScratch [] [["k0"]] [Stored 0] = Ok [].
Proof.
  assert (∀ m, m ∈ pb.Mounts (op Ops.rootAndScratch) →
     ¬ (pb.Input m ≠ @pb_Empty Ops.env ∧ pb.Dest m ≠ @pb_RootMount Ops.env
        ∧ pb.Readonly m = true)) as Hno.
  { intros m Hm (_ & Hd & Hr). simpl in Hm.
    apply elem_of_cons in Hm as [->|Hm]; [by apply Hd|].
    apply elem_of_cons in Hm as [->|Hm]; [discriminate Hr|].
    by apply elem_of_nil in Hm. }
  split; [exact Hno|].
  exact (@ContentKeys_not_applicable Ops.env Ops.rootAndScratch [] [["k0"]] [Stored 0] Hno).
Defined.

(** ** CacheKey *)

(** C9: [CacheKey] is a function of the declared definition only.  It is
    the digest of the encoded record of the cache type and the
    definition; two operations with the same definition get the same key
    whatever their cache manager and worker are, and so do two runs in
    environments that agree on the encoder and on the digest function but
    hold different content behind the references. *)
Theorem CacheKey_definition_only (E1 E2 : Externals) (e1 e2 : execOp) :
  @json_Marshal E1 = @json_Marshal E2 →
  @digest_FromBytes E1 = @digest_FromBytes E2 →
  op e1 = op e2 →
  @CacheKey E1 e1 = @CacheKey E2 e2 ∧
  @CacheKey E1 e1 =
    match @json_Marshal E1 (CacheKeyRecord execCacheType (op e1)) with
    | Ok dt => Ok (@digest_FromBytes E1 dt)
    | Err err => Err err
    | Panic p => Panic p
    end.
Proof.
  intros Hm Hd Hop. unfold CacheKey. rewrite Hm, Hd, Hop. split; [done|].
  by destruct (json_Marshal _).
Qed.

Lemma CacheKey_definition_only_witness :
  @CacheKey (Example.env Ops.content) Ops.endToEnd
  = @CacheKey (Example.env (λ _, "changed"))
      {| op := op Ops.endToEnd;
         cm := {| cache.New := λ _ _ _, Some (External "full");
                  cache.Commit := λ _, Some (External "full") |};
         w := {| worker.Exec := λ _ _ _, Some (External "exit 1") |} |}.
Proof.
  refine (proj1 (CacheKey_definition_only (Example.env Ops.content)
    (Example.env (λ _, "changed")) Ops.endToEnd _ _ _ _)); reflexivity.
Defined.

(** ** Run and ContentKeys on an input index without a reference *)

(** C2: [Run] guards [inputs[int(m.Input)]] with [int(m.Input) > len(inputs)].
    An index beyond the length is refused with the "missing input" error,
    but an index equal to the length passes the guard and the access
    panics: here with one mount on input 0 and no resolved input. *)
Theorem Run_index_equal_to_length :
  @Run Ops.env (Ops.exec [Ops.mount 1 "" "/" 0 false]) [] = (Err (MissingInput 1), []) ∧
  @Run Ops.env (Ops.exec [Ops.mount 0 "" "/" 0 false]) [] = (Panic (IndexOutOfRange 0 0), []).
Proof. split; reflexivity. Qed.

(** C3: [ContentKeys] reads [refs[int(s.index)]] without a guard.  A
    readonly mount of input 1 on a destination other than the root, with
    a single resolved input, makes the access panic; no "invalid
    reference" error is returned. *)
Theorem ContentKeys_index_without_reference :
  @ContentKeys Ops.env (Ops.exec [Ops.mount 1 "" "/src" (-1) true]) []
    [["k0"; "k1"]] [Stored 0]
  = Panic (IndexOutOfRange 1 1).
Proof. by vm_compute. Qed.

(** ** Run: the release of the outputs *)

(** a cache manager whose second mutable reference cannot be committed *)
Definition commitFailsOnSecond : cache.Manager :=
  {| cache.New := λ _ _ _, None;
     cache.Commit := λ n, if decide (n = 1%nat) then Some (External "no space") else None |}.

Definition twoOutputs : execOp :=
  {| op := {| pb.Meta_ := Ops.make;
              pb.Mounts := [Ops.mount (-1) "" "/" 0 false; Ops.mount (-1) "" "/out" 1 false] |};
     cm := commitFailsOnSecond;
     w := Example.w |}.

(** C4: when the commit of the second output fails, [Run] returns the
    error and no reference.  The first output has been committed by then
    and its slot in [outputs] set to nil, so the deferred function
    releases the second output only: the reference [Committed 0] was
    allocated during the call, is not returned and is not released. *)
Theorem Run_commit_failure_partway :
  ∃ tr, @Run Ops.env twoOutputs [] = (Err (CommitFailed (Active 1) (External "no space")), tr) ∧
    allocatedRefs tr = [Active 0; Active 1; Committed 0] ∧
    released tr = [Active 1] ∧
    Committed 0 ∈ allocatedRefs tr ∧ Committed 0 ∉ released tr.
Proof.
  eexists. split; [reflexivity|]. simpl.
  split; [done|]. split; [done|]. split.
  - apply list_elem_of_In. simpl. tauto.
  - intros [Hc|Hc%elem_of_nil]%elem_of_cons; [discriminate Hc|done].
Qed.

(** ** Run: which exits release what

    The three lemmas below are the part of the cleanup that [Run] does
    achieve: a failure while the mounts are set up and a failure of the
    worker release every reference allocated so far, and a successful
    call releases nothing. *)

Section releases.
Context `{Externals}.

Lemma released_app tr1 tr2 : released (tr1 ++ tr2) = released tr1 ++ released tr2.
Proof. apply omap_app. Qed.

Lemma allocatedRefs_app tr1 tr2 :
  allocatedRefs (tr1 ++ tr2) = allocatedRefs tr1 ++ allocatedRefs tr2.
Proof. apply omap_app. Qed.

Lemma released_releaseOutputs s :
  released (releaseOutputs s) = filter (λ o, o ≠ Nil) (outputs s).
Proof.
  unfold releaseOutputs. induction (filter _ (outputs s)) as [|o os IH]; [done|].
  csimpl. by rewrite IH.
Qed.

Lemma allocatedRefs_releaseOutputs s : allocatedRefs (releaseOutputs s) = [].
Proof.
  unfold releaseOutputs. by induction (filter _ (outputs s)) as [|o os IH].
Qed.

(** while the mounts are set up, [outputs] holds the references allocated
    so far, none of them nil, and nothing is released *)
Definition settingUp (s : runState) : Prop :=
  outputs s = allocatedRefs (trace s) ∧
  Forall (λ o, o ≠ Nil) (outputs s) ∧
  released (trace s) = [].

Lemma mountStep_settingUp e inputs m s r s' :
  mountStep e inputs m s = (r, s') → settingUp s → settingUp s'.
Proof.
  unfold mountStep, mbind, run_bind, result_bind, lift, gets, modify, throw, mret, run_ret.
  intros Hstep (Ho & Hn & Hr). revert Hstep.
  destruct (decide (pb.Input m ≠ pb_Empty)) as [Hi|Hi];
    [destruct (decide (Z.of_nat (length inputs) < pb.Input m)%Z); [by intros [= <- <-]|];
     destruct (index inputs (pb.Input m)) as [inp| |]; [|by intros [= <- <-]..];
     destruct (toImmutableRef inp) as [ref|] eqn:Href; [|by intros [= <- <-]]|];
    simpl;
    (destruct (decide (pb.Output m ≠ pb_SkipOutput));
     [destruct (pb.Readonly m && _ && _);
      [|destruct (cache.New _ _ _ _); [by intros [= <- <-]|]]|]);
    destruct (decide (pb.Dest m = pb_RootMount));
    intros [= <- <-]; unfold settingUp; simpl;
    rewrite ?released_app, ?allocatedRefs_app, ?Hr, ?Ho; simpl;
    (split; [done|]); (split; [|done]);
    rewrite <- ?Ho; try done; apply Forall_app; (split; [done|]);
    by apply Forall_singleton.
Qed.

Lemma forM_mountStep_settingUp e inputs ms s r s' :
  forM_ (mountStep e inputs) ms s = (r, s') → settingUp s → settingUp s'.
Proof.
  revert s. induction ms as [|m ms IH]; intros s; simpl; [by intros [= <- <-]|].
  unfold mbind, run_bind.
  destruct (mountStep e inputs m s) as [[[]| |] s1] eqn:Hstep;
    intros Hrest Hs; pose proof (mountStep_settingUp _ _ _ _ _ _ Hstep Hs) as Hs1.
  - by eapply IH.
  - by injection Hrest as <- <-.
  - by injection Hrest as <- <-.
Qed.

Lemma filter_all {A} (P : A → Prop) `{∀ x, Decision (P x)} (l : list A) :
  Forall P l → filter P l = l.
Proof.
  induction 1 as [|x l Hx Hl IH]; [done|].
  by rewrite filter_cons, decide_True, IH.
Qed.

Lemma settingUp_released s tr :
  settingUp s → allocatedRefs tr = [] → released tr = [] →
  released ((trace s ++ tr) ++ releaseOutputs s)
  = allocatedRefs ((trace s ++ tr) ++ releaseOutputs s).
Proof.
  intros (Ho & Hn & Hr) Ha Hrel.
  rewrite !released_app, !allocatedRefs_app, released_releaseOutputs,
    allocatedRefs_releaseOutputs, Hr, Ha, Hrel, <- Ho, !app_nil_r. simpl.
  by apply filter_all.
Qed.

(** the commit loop releases nothing, and when it runs to its end every
    slot of [outputs] it went over is nil *)
Lemma commitLoop_inv e i os refs s r s' :
  commitLoop e i os refs s = (r, s') →
  released (trace s') = released (trace s) ∧
  (∀ refs', r = Ok refs' → length (outputs s) = (i + length os)%nat →
     outputs s' = take i (outputs s) ++ replicate (length os) Nil).
Proof.
  revert i refs s. induction os as [|o os IH]; intros i refs s; simpl.
  - intros [= <- <-]. split; [done|]. intros _ _ Hlen.
    rewrite take_ge by lia. by rewrite app_nil_r.
  - unfold mbind, run_bind, modify, throw, lift, mret, run_ret.
    assert (∀ s1, released (trace s1) = released (trace s) →
              outputs s1 = <[i:=Nil]> (outputs s) →
              commitLoop e (S i) os (refs ++ [match asMutableRef o with
                                              | Some n => Committed n
                                              | None => o
                                              end]) s1 = (r, s') →
              released (trace s') = released (trace s) ∧
              (∀ refs', r = Ok refs' → length (outputs s) = (i + S (length os))%nat →
                 outputs s' = take i (outputs s) ++ Nil :: replicate (length os) Nil))
      as Hstep.
    { intros s1 Hrel Hout [Hrel' Hok]%IH. split; [congruence|].
      intros refs' Hr Hlen. rewrite (Hok refs' Hr), Hout.
      - rewrite (take_S_r _ _ Nil) by (apply list_lookup_insert_eq; lia).
        rewrite take_insert_ge by lia. by rewrite <- app_assoc.
      - rewrite Hout, length_insert. lia. }
    destruct (asMutableRef o) as [n|].
    + destruct (cache.Commit (cm e) n); [by intros [= <- <-]|].
      apply Hstep; simpl; [|done]. rewrite released_app. simpl. by rewrite app_nil_r.
    + by apply Hstep.
Qed.

Lemma filter_replicate_Nil n :
  filter (λ o : Reference, o ≠ Nil) (replicate n Nil) = [].
Proof.
  induction n as [|n IH]; [done|].
  change (replicate (S n) Nil) with (Nil :: replicate n Nil).
  rewrite filter_cons. by destruct (decide (Nil ≠ Nil)) as [Hn|_]; [destruct Hn|].
Qed.

Lemma settingUp_initial : settingUp initial.
Proof. by repeat split. Qed.

(** a failure while the mounts are set up releases every reference
    allocated so far *)
Lemma Run_setup_failure e inputs r s :
  forM_ (mountStep e inputs) (pb.Mounts (op e)) initial = (r, s) → r ≠ Ok () →
  released (Run e inputs).2 = allocatedRefs (Run e inputs).2.
Proof.
  intros Hloop Hr. pose proof (forM_mountStep_settingUp _ _ _ _ _ _ Hloop settingUp_initial) as Hs.
  unfold Run, runBody, mbind, run_bind. rewrite Hloop.
  destruct r as [[]| |]; [done|..]; simpl;
    rewrite <- (app_nil_r (trace s)); by apply settingUp_released.
Qed.

(** a failure of the worker releases every reference allocated *)
Lemma Run_worker_failure e inputs s :
  forM_ (mountStep e inputs) (pb.Mounts (op e)) initial = (Ok (), s) →
  (∃ err, (Run e inputs).1 = Err (WorkerFailed (pb.Args (pb.Meta_ (op e))) err)
          ∧ worker.Exec (w e)
              {| worker.Args := pb.Args (pb.Meta_ (op e));
                 worker.Env := pb.Env (pb.Meta_ (op e));
                 worker.Cwd := pb.Cwd (pb.Meta_ (op e)) |}
              (root s) (sort_Slice mountLess (mounts s)) = Some err) →
  released (Run e inputs).2 = allocatedRefs (Run e inputs).2.
Proof.
  intros Hloop (err & _ & Hexec).
  pose proof (forM_mountStep_settingUp _ _ _ _ _ _ Hloop settingUp_initial) as Hs.
  unfold Run, runBody, mbind, run_bind. rewrite Hloop.
  unfold modify, gets, throw, lift. simpl. rewrite Hexec. simpl.
  by apply (settingUp_released s [_] Hs).
Qed.

(** a successful call releases nothing: the references it returns are
    the caller's *)
Lemma Run_success e inputs refs :
  (Run e inputs).1 = Ok refs → released (Run e inputs).2 = [].
Proof.
  unfold Run, runBody, mbind, run_bind.
  destruct (forM_ _ _ initial) as [[[]| |] s] eqn:Hloop; [|done..].
  destruct (forM_mountStep_settingUp _ _ _ _ _ _ Hloop settingUp_initial) as (_ & _ & Hrel).
  unfold modify, gets, throw, lift. simpl.
  destruct (worker.Exec _ _ _ _); [done|].
  destruct (commitLoop _ _ _ _ _) as [r s'] eqn:Hc. simpl. intros ->.
  apply commitLoop_inv in Hc as [Hrel' Hout]. simpl in *.
  rewrite released_app, released_releaseOutputs, Hrel', released_app, Hrel.
  rewrite (Hout refs eq_refl eq_refl). simpl.
  apply filter_replicate_Nil.
Qed.

End releases.

(** ** Sorting by a key

    Both calls of [sort.Slice] compare a key of the elements with a
    strict total order on the keys. *)

Lemma StronglySorted_weaken {A} (R1 R2 : relation A) l :
  (∀ a b, R1 a b → R2 a b) → StronglySorted R1 l → StronglySorted R2 l.
Proof.
  intros HR. induction 1 as [|x l Hl IH Hx]; constructor; [done|].
  eapply Forall_impl; [exact Hx|]. intros y. apply HR.
Qed.

Definition byKey {A K} (key : A → K) (ltb : K → K → bool) (a b : A) : bool :=
  ltb (key a) (key b).

Section sort_by_key.
Context {A K : Type} (key : A → K) (ltb : K → K → bool).
Hypothesis ltb_irrefl : ∀ k, ltb k k = false.
Hypothesis ltb_trans : ∀ a b c, ltb a b = true → ltb b c = true → ltb a c = true.
Hypothesis ltb_total : ∀ a b, ltb a b = true ∨ a = b ∨ ltb b a = true.

Lemma byKey_asym a b : byKey key ltb a b = true → byKey key ltb b a = false.
Proof.
  unfold byKey. intros Hab. destruct (ltb (key b) (key a)) eqn:Hba; [|done].
  by rewrite <- (ltb_irrefl (key a)), (ltb_trans _ _ _ Hab Hba).
Qed.

Lemma byKey_negtrans a b c :
  byKey key ltb a b = false → byKey key ltb b c = false → byKey key ltb a c = false.
Proof.
  unfold byKey. intros Hab Hbc. destruct (ltb (key a) (key c)) eqn:Hac; [|done].
  destruct (ltb_total (key b) (key a)) as [Hba|[Hba|Hba]]; [|congruence..].
  by rewrite (ltb_trans _ _ _ Hba Hac) in Hbc.
Qed.

Lemma sort_Slice_by_key_sorted l :
  StronglySorted (inOrder (byKey key ltb)) (sort_Slice (byKey key ltb) l).
Proof.
  apply (sort_Slice_sorted (byKey key ltb) byKey_asym byKey_negtrans).
Qed.

Lemma StronglySorted_distinct_keys (R : relation A) l :
  StronglySorted R l → NoDup (key <$> l) →
  StronglySorted (λ a b, R a b ∧ key a ≠ key b) l.
Proof.
  induction 1 as [|x l Hl IH Hx]; csimpl; [constructor|].
  intros [Hnotin Hnd]%NoDup_cons. constructor; [by apply IH|].
  rewrite Forall_forall in Hx. apply Forall_forall. intros y Hy.
  split; [by apply Hx|]. intros Heq. apply Hnotin. rewrite Heq.
  apply list_elem_of_fmap. by exists y.
Qed.

Lemma StronglySorted_by_key_strict l :
  NoDup (key <$> l) →
  StronglySorted (inOrder (byKey key ltb)) l →
  StronglySorted (λ a b, ltb (key a) (key b) = true) l.
Proof.
  intros Hnd Hs.
  pose proof (StronglySorted_distinct_keys _ _ Hs Hnd) as Hs'.
  eapply StronglySorted_weaken; [|exact Hs']. unfold inOrder, byKey. simpl.
  intros a b [Hba Hne]. by destruct (ltb_total (key a) (key b)) as [?|[?|?]]; try congruence.
Qed.

(** a list with distinct keys has one sorted arrangement: any sorting
    procedure returns it *)
Lemma StronglySorted_by_key_unique l1 l2 :
  l1 ≡ₚ l2 → NoDup (key <$> l1) →
  StronglySorted (inOrder (byKey key ltb)) l1 →
  StronglySorted (inOrder (byKey key ltb)) l2 →
  l1 = l2.
Proof.
  intros Hp Hnd Hs1 Hs2.
  apply (StronglySorted_unique_strong (λ a b, ltb (key a) (key b) = true)).
  - intros x1 x2 _ _ H12 H21. exfalso.
    pose proof (ltb_trans _ _ _ H12 H21) as Hxx.
    by rewrite ltb_irrefl in Hxx.
  - by apply StronglySorted_by_key_strict.
  - apply StronglySorted_by_key_strict; [by rewrite <- Hp|done].
  - done.
Qed.

Lemma sort_Slice_by_key_strict l :
  NoDup (key <$> l) →
  StronglySorted (λ a b, ltb (key a) (key b) = true) (sort_Slice (byKey key ltb) l).
Proof.
  intros Hnd. apply StronglySorted_by_key_strict.
  - by rewrite sort_Slice_Permutation.
  - apply sort_Slice_by_key_sorted.
Qed.

Lemma sort_Slice_by_key_unique l1 l2 :
  l1 ≡ₚ l2 → NoDup (key <$> l1) →
  sort_Slice (byKey key ltb) l1 = sort_Slice (byKey key ltb) l2.
Proof.
  intros Hp Hnd. apply StronglySorted_by_key_unique.
  - by rewrite !sort_Slice_Permutation.
  - by rewrite sort_Slice_Permutation.
  - apply sort_Slice_by_key_sorted.
  - apply sort_Slice_by_key_sorted.
Qed.

End sort_by_key.

Lemma String_ltb_irrefl s : String.ltb s s = false.
Proof.
  destruct (String.ltb s s) eqn:Hs; [|done]. by destruct (GoString.lt_irrefl s).
Qed.

Lemma String_ltb_trans a b c :
  String.ltb a b = true → String.ltb b c = true → String.ltb a c = true.
Proof. apply GoString.lt_trans. Qed.

Lemma String_ltb_total a b : String.ltb a b = true ∨ a = b ∨ String.ltb b a = true.
Proof. apply GoString.lt_total. Qed.

(** the order of [srcLess]: by index, then by selector *)
Definition srcLt (a b : src) : Prop :=
  (a.1 < b.1)%Z ∨ a.1 = b.1 ∧ GoString.lt a.2 b.2.

Lemma srcLess_spec a b : srcLess a b = true ↔ srcLt a b.
Proof.
  unfold srcLess, srcLt, GoString.lt. destruct (decide (a.1 = b.1)) as [Heq|Hne].
  - split; [by right|]. intros [Hlt|[_ ?]]; [lia|done].
  - rewrite bool_decide_eq_true. split; [by left|]. by intros [?|[? _]].
Qed.

Lemma srcLess_irrefl a : srcLess a a = false.
Proof.
  unfold srcLess. rewrite decide_True by done. apply String_ltb_irrefl.
Qed.

Lemma srcLess_trans a b c : srcLess a b = true → srcLess b c = true → srcLess a c = true.
Proof.
  rewrite !srcLess_spec. unfold srcLt.
  intros [Hab|[Hab Hab']] [Hbc|[Hbc Hbc']]; [left; lia..|].
  right. split; [congruence|]. by eapply GoString.lt_trans.
Qed.

Lemma srcLess_total a b : srcLess a b = true ∨ a = b ∨ srcLess b a = true.
Proof.
  rewrite !srcLess_spec. unfold srcLt. destruct a as [i s], b as [j t]; simpl.
  destruct (Z.lt_total i j) as [?|[->|?]]; [by left; left| |by right; right; left].
  destruct (GoString.lt_total s t) as [?|[->|?]]; [by left; right|by right; left|].
  right; right; by right.
Qed.

Lemma forEach_Ok {A B} (f : A → result B) l bs :
  forEach f l = Ok bs ↔ Forall2 (λ a b, f a = Ok b) l bs.
Proof.
  revert bs. induction l as [|a l IH]; intros bs; simpl.
  - split; [by intros [= <-]; constructor|by inversion 1].
  - destruct (f a) as [b| |] eqn:Hfa; simpl.
    + destruct (forEach f l) as [bs'| |] eqn:Hl; simpl.
      * split.
        -- intros [= <-]. constructor; [done|]. by apply IH.
        -- inversion 1 as [|? b' ? bs'' Hb Hbs]; subst.
           apply IH in Hbs. congruence.
      * split; [done|]. inversion 1 as [|? b' ? bs'' Hb Hbs]; subst.
        by apply IH in Hbs.
      * split; [done|]. inversion 1 as [|? b' ? bs'' Hb Hbs]; subst.
        by apply IH in Hbs.
    + split; [done|]. inversion 1; congruence.
    + split; [done|]. inversion 1; congruence.
Qed.

Lemma forEach_ext {A B} (f g : A → result B) l :
  (∀ a, a ∈ l → f a = g a) → forEach f l = forEach g l.
Proof.
  induction l as [|a l IH]; intros Hfg; simpl; [done|].
  rewrite (Hfg a) by left. rewrite IH; [done|]. intros b Hb. apply Hfg. by right.
Qed.

Section sources.
Context `{Externals}.

Lemma sortedSrcs_Permutation ms iter :
  sortedSrcs ms iter ≡ₚ elements (srcsMap (classify ms)).
Proof. unfold sortedSrcs. by rewrite sort_Slice_Permutation, mapRange_Permutation. Qed.

Lemma elem_of_sortedSrcs ms iter s :
  s ∈ sortedSrcs ms iter ↔ ∃ m, m ∈ ms ∧ qualifies m = true ∧ s = srcOf m.
Proof.
  by rewrite sortedSrcs_Permutation, elem_of_elements, elem_of_srcsMap_classify.
Qed.

Lemma NoDup_sortedSrcs ms iter : NoDup (sortedSrcs ms iter).
Proof. rewrite sortedSrcs_Permutation. apply NoDup_elements. Qed.

Lemma sortedSrcs_sorted ms iter : StronglySorted srcLt (sortedSrcs ms iter).
Proof.
  eapply StronglySorted_weaken; [intros a b; apply srcLess_spec|].
  apply (sort_Slice_by_key_strict id srcLess srcLess_irrefl srcLess_trans srcLess_total).
  rewrite list_fmap_id, mapRange_Permutation. apply NoDup_elements.
Qed.

Lemma srcsMap_classify_Permutation ms ms' :
  ms ≡ₚ ms' → srcsMap (classify ms) = srcsMap (classify ms').
Proof.
  intros Hp. apply set_eq. intros s. rewrite !elem_of_srcsMap_classify.
  by setoid_rewrite Hp.
Qed.

Lemma sortedSrcs_unique ms ms' iter iter' :
  ms ≡ₚ ms' → sortedSrcs ms iter = sortedSrcs ms' iter'.
Proof.
  intros Hp. unfold sortedSrcs. rewrite <- (srcsMap_classify_Permutation _ _ Hp).
  apply (sort_Slice_by_key_unique id srcLess srcLess_irrefl srcLess_trans srcLess_total).
  - by rewrite !mapRange_Permutation.
  - rewrite list_fmap_id, mapRange_Permutation. apply NoDup_elements.
Qed.

Lemma contentChecksums_Ok srcs refs dgsts :
  contentChecksums srcs refs = Ok dgsts →
  Forall2 (λ s d, ∃ r ref, index refs s.1 = Ok r ∧ toImmutableRef r = Some ref
                           ∧ contenthash_Checksum ref s.2 = Ok d) srcs dgsts.
Proof.
  unfold contentChecksums.
  destruct (forEach _ srcs) as [args| |] eqn:Hargs; simpl; [|done..].
  apply forEach_Ok in Hargs. rewrite forEach_Ok.
  revert dgsts. induction Hargs as [|s r srcs args Hr Hargs IH]; intros dgsts; simpl.
  - inversion 1. constructor.
  - inversion 1 as [|? d ? ds Hd Hds]; subst. constructor; [|by apply IH].
    exists r. unfold checksumTask in Hd. simpl in Hd.
    destruct (toImmutableRef r) as [ref|]; [|done]. by exists ref.
Qed.

(** what a successful call returns *)
Definition keyFor (e : execOp) (dgsts : list Digest) (skipped : list Z)
    (cacheKeys : list Digest) (k : Digest) : Prop :=
  ∃ inputKeys dt,
    Forall2 (λ i key, index cacheKeys i = Ok key) skipped inputKeys ∧
    json_Marshal (ContentKeyRecord execCacheType dgsts inputKeys (op e)) = Ok dt ∧
    k = digest_FromBytes dt.

Lemma refinedKey_Ok e dgsts skipped cacheKeys k :
  refinedKey e dgsts skipped cacheKeys = Ok k ↔ keyFor e dgsts skipped cacheKeys k.
Proof.
  unfold refinedKey, keyFor. split.
  - destruct (forEach _ skipped) as [inputKeys| |] eqn:Hik; simpl; [|done..].
    destruct (json_Marshal _) as [dt| |] eqn:Hdt; simpl; [|done..].
    intros [= <-]. exists inputKeys, dt. by rewrite <- forEach_Ok.
  - intros (inputKeys & dt & Hik%forEach_Ok & Hdt & ->).
    rewrite Hik. simpl. by rewrite Hdt.
Qed.

End sources.

(** ** ContentKeys: the order of the content checksums *)

(** C6: the [srcs] that [ContentKeys] computes the checksums of are the
    distinct pairs of input index and normalized selector of the
    qualifying mounts, each once, in the order of the index and then of
    the selector.  The list is the same for every iteration order of the
    map and for every order in which the mounts are declared, and so is
    the result of [ContentKeys] for every iteration order.  When
    [ContentKeys] returns keys, for the operation or for one that
    declares the same mounts in another order, the checksums are those
    of this list, one for each source and in its order, and every key is
    the digest of the record with exactly these checksums as its
    [Sources]. *)
Theorem ContentKeys_sources_order `{Externals} (e e' : execOp) (iter iter' : list nat) :
  pb.Mounts (op e) ≡ₚ pb.Mounts (op e') →
  let srcs := sortedSrcs (pb.Mounts (op e)) iter in
  (∀ s, s ∈ srcs ↔
     ∃ m, m ∈ pb.Mounts (op e) ∧ qualifies m = true
          ∧ s = (pb.Input m, path_Join ["/"; pb.Selector m])) ∧
  NoDup srcs ∧
  StronglySorted (λ a b, (a.1 < b.1)%Z ∨ a.1 = b.1 ∧ GoString.lt a.2 b.2) srcs ∧
  sortedSrcs (pb.Mounts (op e')) iter' = srcs ∧
  (∀ inputs refs, ContentKeys e iter' inputs refs = ContentKeys e iter inputs refs) ∧
  (∀ inputs refs out,
     refs ≠ [] →
     (∃ m, m ∈ pb.Mounts (op e) ∧ qualifies m = true) →
     ContentKeys e' iter' inputs refs = Ok out →
     ∃ dgsts,
       contentChecksums srcs refs = Ok dgsts ∧
       Forall2 (λ s d, ∃ r ref, index refs s.1 = Ok r ∧ toImmutableRef r = Some ref
                                ∧ contenthash_Checksum ref s.2 = Ok d) srcs dgsts ∧
       Forall2 (λ cacheKeys key,
                  ∃ inputKeys dt,
                    Forall2 (λ i k, index cacheKeys i = Ok k)
                      (skipped (classify (pb.Mounts (op e')))) inputKeys ∧
                    json_Marshal (ContentKeyRecord execCacheType dgsts inputKeys (op e'))
                      = Ok dt ∧
                    key = digest_FromBytes dt)
         inputs out).
Proof.
  intros Hp srcs. subst srcs.
  split; [apply elem_of_sortedSrcs|].
  split; [apply NoDup_sortedSrcs|].
  split; [apply sortedSrcs_sorted|].
  pose proof (sortedSrcs_unique _ _ iter iter' Hp) as Huniq.
  split; [done|]. split.
  { intros inputs refs. unfold ContentKeys.
    by rewrite (sortedSrcs_unique (pb.Mounts (op e)) (pb.Mounts (op e)) iter' iter). }
  intros inputs refs out Hrefs (m & Hm & Hq). unfold ContentKeys.
  rewrite decide_False by (by destruct refs).
  destruct (skip (classify (pb.Mounts (op e')))) eqn:Hskip.
  { rewrite Hp in Hm. by rewrite (proj1 (skip_classify _) Hskip m Hm) in Hq. }
  rewrite <- Huniq.
  destruct (contentChecksums _ refs) as [dgsts| |] eqn:Hd; simpl; [|done..].
  intros Hout%forEach_Ok. exists dgsts. split; [done|].
  split; [by apply contentChecksums_Ok|].
  eapply Forall2_impl; [exact Hout|]. intros cacheKeys key. apply refinedKey_Ok.
Qed.

Module Sources.
(** four readonly mounts with two readings of the same selector of input 1,
    and a root mount *)
Definition mounts : list pb.Mount :=
  [Ops.mount 2 "lib" "/lib" (-1) true; Ops.mount 1 "/app" "/src" (-1) true;
   Ops.mount 0 "" "/" 0 false; Ops.mount 1 "app/" "/src2" (-1) true;
   Ops.mount 1 "" "/all" (-1) true].
End Sources.

Lemma ContentKeys_sources_order_witness :
  pb.Mounts (op (Ops.exec Sources.mounts)) ≡ₚ pb.Mounts (op (Ops.exec (reverse Sources.mounts))) ∧
  @sortedSrcs Ops.env (reverse Sources.mounts) [2; 0; 1]%nat
  = [(1, "/"); (1, "/app"); (2, "/lib")] ∧
  @sortedSrcs Ops.env Sources.mounts [] = [(1, "/"); (1, "/app"); (2, "/lib")] ∧
  ∃ out dgsts,
    @ContentKeys Ops.env (Ops.exec (reverse Sources.mounts)) [2; 0; 1]%nat
      [["k0"; "k1"; "k2"]] [Stored 0; Stored 1; Stored 2] = Ok out ∧
    @contentChecksums Ops.env (@sortedSrcs Ops.env Sources.mounts [])
      [Stored 0; Stored 1; Stored 2] = Ok dgsts ∧
    length dgsts = 3%nat ∧ length out = 1%nat.
Proof.
  assert (pb.Mounts (op (Ops.exec Sources.mounts))
          ≡ₚ pb.Mounts (op (Ops.exec (reverse Sources.mounts)))) as Hp.
  { simpl. symmetry. apply reverse_Permutation. }
  split; [exact Hp|].
  pose proof (@ContentKeys_sources_order Ops.env (Ops.exec Sources.mounts)
                (Ops.exec (reverse Sources.mounts)) [] [2; 0; 1]%nat Hp)
    as (_ & _ & _ & Heq & _ & Hkeys).
  split; [etransitivity; [exact Heq|]; by vm_compute|].
  split; [by vm_compute|].
  eexists.
  edestruct (Hkeys [["k0"; "k1"; "k2"]] [Stored 0; Stored 1; Stored 2])
    as (dgsts & Hd & Hsrcs & Hout).
  - discriminate.
  - exists (Ops.mount 2 "lib" "/lib" (-1) true). split; [left|reflexivity].
  - by vm_compute.
  - exists dgsts. split; [reflexivity|]. split; [exact Hd|].
    split; [|reflexivity].
    rewrite <- (Forall2_length _ _ _ Hsrcs). by vm_compute.
Defined.

(** ** Run: the mounts passed to the worker *)

Section mounts_of_Run.
Context `{Externals}.

(** a worker mount up to the identity of freshly allocated references *)
Definition eraseAlloc (r : Reference) : Reference :=
  match r with Active _ => Active 0 | _ => r end.
Definition mountShape (m : worker.Mount) : worker.Mount :=
  {| worker.Src := eraseAlloc (worker.Src m); worker.Dest := worker.Dest m;
     worker.Readonly := worker.Readonly m; worker.Selector := worker.Selector m |}.

(** the worker mount a declaration stands for *)
Definition auxSrc (inputs : list Reference) (m : pb.Mount) : Reference :=
  let ref :=
    if decide (pb.Input m ≠ pb_Empty) then
      match index inputs (pb.Input m) with
      | Ok inp => default Nil (toImmutableRef inp)
      | _ => Nil
      end
    else Nil in
  if decide (pb.Output m ≠ pb_SkipOutput) then
    if pb.Readonly m && bool_decide (ref ≠ Nil) && bool_decide (pb.Dest m ≠ pb_RootMount)
    then ref else Active 0
  else ref.
Definition auxMount (inputs : list Reference) (m : pb.Mount) : worker.Mount :=
  {| worker.Src := auxSrc inputs m; worker.Dest := pb.Dest m;
     worker.Readonly := pb.Readonly m; worker.Selector := pb.Selector m |}.

Lemma eraseAlloc_toImmutableRef inp ref :
  toImmutableRef inp = Some ref → eraseAlloc ref = ref.
Proof. destruct inp; simpl; by intros [= <-]. Qed.

Lemma mountStep_inv e inputs m s r s' :
  mountStep e inputs m s = (r, s') →
  workerMounts (trace s') = workerMounts (trace s) ∧
  (r = Ok () →
   mountShape <$> mounts s' = (mountShape <$> mounts s) ++
      (if decide (pb.Dest m = pb_RootMount) then [] else [auxMount inputs m])).
Proof.
  unfold mountStep, auxMount, auxSrc, mbind, run_bind, result_bind, lift, gets,
    modify, throw, mret, run_ret.
  assert (∀ inp ref, toImmutableRef inp = Some ref → eraseAlloc ref = ref) as Her
    by apply eraseAlloc_toImmutableRef.
  destruct (decide (pb.Input m ≠ pb_Empty)) as [Hi|Hi];
    [destruct (decide (Z.of_nat (length inputs) < pb.Input m)%Z); [by intros [= <- <-]|];
     destruct (index inputs (pb.Input m)) as [inp| |]; [|by intros [= <- <-]..];
     destruct (toImmutableRef inp) as [ref|] eqn:Href; [|by intros [= <- <-]];
     apply Her in Href|];
    simpl;
    (destruct (decide (pb.Output m ≠ pb_SkipOutput));
     [destruct (pb.Readonly m && _ && _);
      [|destruct (cache.New _ _ _ _); [by intros [= <- <-]|]]|]);
    destruct (decide (pb.Dest m = pb_RootMount));
    intros [= <- <-]; unfold workerMounts; simpl;
    rewrite ?omap_app, ?fmap_app; simpl; rewrite ?app_nil_r;
    (split; [done|]); intros _; try done;
    unfold mountShape; simpl; by rewrite ?Href.
Qed.

Lemma forM_mountStep_inv e inputs ms s r s' :
  forM_ (mountStep e inputs) ms s = (r, s') →
  workerMounts (trace s') = workerMounts (trace s) ∧
  (r = Ok () →
   mountShape <$> mounts s' = (mountShape <$> mounts s) ++
      (auxMount inputs <$> filter (λ m, pb.Dest m ≠ pb_RootMount) ms)).
Proof.
  revert s. induction ms as [|m ms IH]; intros s; simpl.
  - intros [= <- <-]. by rewrite app_nil_r.
  - unfold mbind, run_bind.
    destruct (mountStep e inputs m s) as [[[]| |] s1] eqn:Hstep;
      apply mountStep_inv in Hstep as [Htr Hm].
    + intros [Htr' Hms]%IH. split; [congruence|]. intros Hr.
      rewrite (Hms Hr), (Hm eq_refl), <- app_assoc. f_equal.
      rewrite filter_cons. by destruct (decide (pb.Dest m = pb_RootMount)); case_decide.
    + by intros [= <- <-].
    + by intros [= <- <-].
Qed.


Lemma workerMounts_app tr1 tr2 :
  workerMounts (tr1 ++ tr2) = workerMounts tr1 ++ workerMounts tr2.
Proof. apply omap_app. Qed.

Lemma workerMounts_releaseOutputs s : workerMounts (releaseOutputs s) = [].
Proof.
  unfold releaseOutputs. by induction (filter _ (outputs s)) as [|o os IH].
Qed.

Lemma commitLoop_workerMounts e i os refs s r s' :
  commitLoop e i os refs s = (r, s') →
  workerMounts (trace s') = workerMounts (trace s).
Proof.
  revert i refs s. induction os as [|o os IH]; intros i refs s; simpl.
  - by intros [= <- <-].
  - unfold mbind, run_bind, modify, throw, lift, mret, run_ret.
    destruct (asMutableRef o) as [n|].
    + destruct (cache.Commit (cm e) n); [by intros [= <- <-]|].
      intros ->%IH. simpl. rewrite workerMounts_app. simpl. by rewrite app_nil_r.
    + by intros ->%IH.
Qed.

(** the worker is called at most once, after the loop over the mounts,
    with the sorted [mounts] *)
Lemma Run_workerMounts e inputs :
  workerMounts (Run e inputs).2 =
    match forM_ (mountStep e inputs) (pb.Mounts (op e)) initial with
    | (Ok _, s) => [sort_Slice mountLess (mounts s)]
    | _ => []
    end.
Proof.
  unfold Run, runBody, mbind, run_bind.
  destruct (forM_ _ _ _) as [[[]| |] s] eqn:Hloop;
    apply forM_mountStep_inv in Hloop as [Htr _]; simpl in Htr; simpl;
    [|by rewrite workerMounts_app, workerMounts_releaseOutputs, Htr..].
  unfold modify, gets, throw, lift. simpl.
  destruct (worker.Exec _ _ _ _); simpl.
  - by rewrite !workerMounts_app, workerMounts_releaseOutputs, Htr.
  - destruct (commitLoop _ _ _ _ _) as [r s'] eqn:Hc.
    apply commitLoop_workerMounts in Hc. simpl in *.
    by rewrite workerMounts_app, workerMounts_releaseOutputs, Hc, workerMounts_app, Htr.
Qed.

Lemma Run_workerMounts_shape e inputs ms :
  workerMounts (Run e inputs).2 = [ms] →
  mountShape <$> ms =
    sort_Slice mountLess
      (auxMount inputs <$> filter (λ m, pb.Dest m ≠ pb_RootMount) (pb.Mounts (op e))).
Proof.
  rewrite Run_workerMounts.
  destruct (forM_ _ _ _) as [[[]| |] s] eqn:Hloop; [|done..].
  apply forM_mountStep_inv in Hloop as [_ Hms]. specialize (Hms eq_refl).
  simpl in Hms. intros [= <-].
  by rewrite (sort_Slice_fmap mountShape mountLess mountLess), Hms.
Qed.

End mounts_of_Run.

(** two readonly mounts of different subtrees on the same destination,
    declared in either order *)
Definition sameDestination : list pb.Mount :=
  [Ops.mount 0 "x" "/a" (-1) true; Ops.mount 0 "y" "/a" (-1) true].

(** C7, as stated, fails: [sort.Slice] compares the destinations only and
    leaves two mounts with the same destination in the order of their
    declaration, so the two declaration orders give the worker two
    different sequences. *)
Lemma Run_mounts_same_destination :
  pb.Mounts (op (Ops.exec sameDestination))
    ≡ₚ pb.Mounts (op (Ops.exec (reverse sameDestination))) ∧
  workerMounts (@Run Ops.env (Ops.exec sameDestination) [Stored 0]).2
    = [[ {| worker.Src := Stored 0; worker.Dest := "/a";
            worker.Readonly := true; worker.Selector := "x" |};
         {| worker.Src := Stored 0; worker.Dest := "/a";
            worker.Readonly := true; worker.Selector := "y" |} ]] ∧
  workerMounts (@Run Ops.env (Ops.exec (reverse sameDestination)) [Stored 0]).2
    = [[ {| worker.Src := Stored 0; worker.Dest := "/a";
            worker.Readonly := true; worker.Selector := "y" |};
         {| worker.Src := Stored 0; worker.Dest := "/a";
            worker.Readonly := true; worker.Selector := "x" |} ]] ∧
  workerMounts (@Run Ops.env (Ops.exec sameDestination) [Stored 0]).2
    ≠ workerMounts (@Run Ops.env (Ops.exec (reverse sameDestination)) [Stored 0]).2.
Proof.
  split; [simpl; symmetry; apply reverse_Permutation|].
  split; [reflexivity|]. split; [reflexivity|]. by vm_compute.
Qed.

(** C7, amended: when the destinations of the mounts other than the root
    are pairwise distinct, two operations whose mount declarations are
    permutations of each other pass the same sequence of auxiliary mounts
    to the worker (the same destinations, flags, selectors and sources, up
    to the identity of the references the call allocates), in strictly
    increasing order of the destination. *)
Theorem Run_mounts_sorted `{Externals} (e1 e2 : execOp) (inputs : list Reference)
    (ms1 ms2 : list worker.Mount) :
  pb.Mounts (op e1) ≡ₚ pb.Mounts (op e2) →
  NoDup (pb.Dest <$> filter (λ m, pb.Dest m ≠ pb_RootMount) (pb.Mounts (op e1))) →
  workerMounts (Run e1 inputs).2 = [ms1] →
  workerMounts (Run e2 inputs).2 = [ms2] →
  mountShape <$> ms1 = mountShape <$> ms2 ∧
  StronglySorted (λ a b, GoString.lt (worker.Dest a) (worker.Dest b)) ms1.
Proof.
  intros Hp Hnd H1 H2.
  assert (∀ l : list pb.Mount,
            worker.Dest <$> (auxMount inputs <$> l) = pb.Dest <$> l) as Hdest.
  { intros l. by rewrite <- list_fmap_compose. }
  split.
  - rewrite (Run_workerMounts_shape _ _ _ H1), (Run_workerMounts_shape _ _ _ H2).
    apply (sort_Slice_by_key_unique worker.Dest String.ltb
             String_ltb_irrefl String_ltb_trans String_ltb_total).
    + by rewrite Hp.
    + by rewrite Hdest.
  - assert (NoDup (worker.Dest <$> ms1)) as Hnd1.
    { replace (worker.Dest <$> ms1) with (worker.Dest <$> (mountShape <$> ms1))
        by (by rewrite <- list_fmap_compose).
      rewrite (Run_workerMounts_shape _ _ _ H1), sort_Slice_Permutation.
      by rewrite Hdest. }
    rewrite Run_workerMounts in H1.
    destruct (forM_ _ _ _) as [[[]| |] s] eqn:Hloop; [|done..].
    injection H1 as <-.
    apply (sort_Slice_by_key_strict worker.Dest String.ltb
             String_ltb_irrefl String_ltb_trans String_ltb_total).
    by rewrite sort_Slice_Permutation in Hnd1.
Qed.

(** three mounts on distinct destinations, two of them with an output *)
Definition distinctDestinations : list pb.Mount :=
  [Ops.mount 1 "/app" "/src" (-1) true; Ops.mount (-1) "" "/out" 1 false;
   Ops.mount 0 "" "/" 0 false; Ops.mount (-1) "" "/cache" 2 false].

Lemma Run_mounts_sorted_witness :
  mountShape <$>
    [ {| worker.Src := Active 2; worker.Dest := "/cache";
         worker.Readonly := false; worker.Selector := "" |};
      {| worker.Src := Active 0; worker.Dest := "/out";
         worker.Readonly := false; worker.Selector := "" |};
      {| worker.Src := Stored 1; worker.Dest := "/src";
         worker.Readonly := true; worker.Selector := "/app" |} ]
  = mountShape <$>
    [ {| worker.Src := Active 0; worker.Dest := "/cache";
         worker.Readonly := false; worker.Selector := "" |};
      {| worker.Src := Active 2; worker.Dest := "/out";
         worker.Readonly := false; worker.Selector := "" |};
      {| worker.Src := Stored 1; worker.Dest := "/src";
         worker.Readonly := true; worker.Selector := "/app" |} ].
Proof.
  refine (proj1 (@Run_mounts_sorted Ops.env (Ops.exec distinctDestinations)
    (Ops.exec (reverse distinctDestinations)) [Stored 0; Stored 1] _ _ _ _ _ _)).
  - simpl. symmetry. apply reverse_Permutation.
  - apply (bool_decide_unpack _). by vm_compute.
  - reflexivity.
  - reflexivity.
Defined.

(** ** ContentKeys: what a refined key depends on *)

Section refined_keys.
Context `{Externals}.

Lemma refinedKey_op e1 e2 dgsts skipped cacheKeys :
  op e1 = op e2 →
  refinedKey e1 dgsts skipped cacheKeys = refinedKey e2 dgsts skipped cacheKeys.
Proof. unfold refinedKey. by intros ->. Qed.

(** a refined key is the digest of the record of the checksums, the keys
    of the skipped inputs and the definition: where the encoder and the
    digest function do not collide, equal refined keys come from equal
    definitions *)
Lemma refinedKey_definition e1 e2 dgsts1 dgsts2 skipped1 skipped2 keys1 keys2 k :
  (∀ v1 v2 b1 b2, json_Marshal v1 = Ok b1 → json_Marshal v2 = Ok b2 →
     digest_FromBytes b1 = digest_FromBytes b2 → v1 = v2) →
  refinedKey e1 dgsts1 skipped1 keys1 = Ok k →
  refinedKey e2 dgsts2 skipped2 keys2 = Ok k →
  op e1 = op e2 ∧ dgsts1 = dgsts2.
Proof.
  intros Hinj. unfold refinedKey.
  destruct (forEach (index keys1) skipped1) as [ik1| |]; simpl; [|done..].
  destruct (forEach (index keys2) skipped2) as [ik2| |]; simpl; [|done..].
  destruct (json_Marshal (ContentKeyRecord _ dgsts1 _ _)) as [b1| |] eqn:Hb1;
    simpl; [|done..].
  destruct (json_Marshal (ContentKeyRecord _ dgsts2 _ _)) as [b2| |] eqn:Hb2;
    simpl; [|done..].
  intros [= <-] [= Hk]. symmetry in Hk.
  by injection (Hinj _ _ _ _ Hb1 Hb2 Hk) as -> _ ->.
Qed.

Lemma contentChecksums_ext (srcs : list src) (refs1 refs2 : list Reference) :
  (∀ s, s ∈ srcs →
     ∃ r1 r2, index refs1 s.1 = Ok r1 ∧ index refs2 s.1 = Ok r2
              ∧ checksumTask s r1 = checksumTask s r2) →
  contentChecksums srcs refs1 = contentChecksums srcs refs2.
Proof.
  intros Hs. unfold contentChecksums.
  assert (∃ rs1 rs2,
    forEach (λ s : src, index refs1 s.1) srcs = Ok rs1 ∧
    forEach (λ s : src, index refs2 s.1) srcs = Ok rs2 ∧
    Forall2 (λ sr1 sr2, checksumTask sr1.1 sr1.2 = checksumTask sr2.1 sr2.2)
      (zip srcs rs1) (zip srcs rs2)) as (rs1 & rs2 & -> & -> & Hz).
  { unfold src, pb.InputIndex in *.
    induction srcs as [|s srcs IH]; cbn [forEach].
    - exists [], []. repeat split; constructor.
    - destruct (Hs s) as (r1 & r2 & -> & -> & Ht); [left|].
      destruct IH as (rs1 & rs2 & -> & -> & Hz).
      { intros s' Hs'. apply Hs. by right. }
      exists (r1 :: rs1), (r2 :: rs2). repeat split. by constructor. }
  simpl. revert Hz. generalize (zip srcs rs1) (zip srcs rs2).
  induction 1 as [|sr1 sr2 l1 l2 Heq Hl IH]; simpl; [done|].
  by rewrite Heq, IH.
Qed.

End refined_keys.

(** the end-to-end operation with another command *)
Definition endToEndInstall : execOp :=
  {| op := {| pb.Meta_ := {| pb.Args := ["make"; "install"];
                             pb.Env := pb.Env Ops.make; pb.Cwd := pb.Cwd Ops.make |};
              pb.Mounts := pb.Mounts (op Ops.endToEnd) |};
     cm := Example.cm; w := Example.w |}.

(** C1, as stated, fails: the definition is a field of the record that is
    hashed into every refined key.  Two operations that mount the same
    references at the same paths with the same selectors, and are given
    the same candidate keys, get the same content checksums and the same
    skipped input keys but different refined keys when their definitions
    differ, here in the command. *)
Lemma ContentKeys_definition_folded_in :
  op Ops.endToEnd ≠ op endToEndInstall ∧
  pb.Mounts (op Ops.endToEnd) = pb.Mounts (op endToEndInstall) ∧
  @contentChecksums Ops.env
      (@sortedSrcs Ops.env (pb.Mounts (op Ops.endToEnd)) []) [Stored 0; Stored 1]
    = @contentChecksums Ops.env
      (@sortedSrcs Ops.env (pb.Mounts (op endToEndInstall)) []) [Stored 0; Stored 1] ∧
  ∃ k1 k2,
    @ContentKeys Ops.env Ops.endToEnd [] [["k0"; "k1"]] [Stored 0; Stored 1] = Ok [k1] ∧
    @ContentKeys Ops.env endToEndInstall [] [["k0"; "k1"]] [Stored 0; Stored 1] = Ok [k2] ∧
    k1 ≠ k2.
Proof.
  split; [by vm_compute|]. split; [done|]. split; [done|].
  eexists _, _. split; [by vm_compute|]. split; [by vm_compute|]. by vm_compute.
Qed.

Lemma skip_classify_false `{Externals} ms :
  skip (classify ms) = false → ∃ m, m ∈ ms ∧ qualifies m = true.
Proof.
  intros Hs. destruct (decide (Exists (λ m, qualifies m = true) ms)) as [Hex|Hno].
  - apply Exists_exists in Hex as (m & Hm & Hq). by exists m.
  - assert (skip (classify ms) = true) as Ht; [|congruence].
    apply skip_classify. intros m Hm.
    destruct (qualifies m) eqn:Hq; [|done].
    destruct Hno. apply Exists_exists. by exists m.
Qed.

Lemma index_nil {A} (i : Z) : index (@nil A) i = Panic (IndexOutOfRange i 0).
Proof. unfold index. by destruct (decide (0 ≤ i)%Z). Qed.

(** C1, amended: the refined keys are determined by the definition, the
    content checksums and the candidate keys.  Two operations with the
    same declared definition, whose qualifying mounts are resolved to
    references (possibly different ones, made by different upstream
    steps) with identical content checksums under the mounts' selectors,
    get identical refined keys for corresponding candidates.  The
    definition itself is part of every refined key ([refinedKey_definition]). *)
Theorem ContentKeys_content_determined `{Externals} (e1 e2 : execOp)
    (iter1 iter2 : list nat) (inputs : list (list Digest)) (refs1 refs2 : list Reference) :
  op e1 = op e2 →
  (∀ m, m ∈ pb.Mounts (op e1) → qualifies m = true →
     ∃ r1 r2 i1 i2,
       index refs1 (pb.Input m) = Ok r1 ∧ index refs2 (pb.Input m) = Ok r2 ∧
       toImmutableRef r1 = Some i1 ∧ toImmutableRef r2 = Some i2 ∧
       contenthash_Checksum i1 (path_Join ["/"; pb.Selector m])
       = contenthash_Checksum i2 (path_Join ["/"; pb.Selector m])) →
  ContentKeys e1 iter1 inputs refs1 = ContentKeys e2 iter2 inputs refs2.
Proof.
  intros Hop Hsame. unfold ContentKeys. rewrite <- Hop.
  destruct (skip (classify (pb.Mounts (op e1)))) eqn:Hskip.
  { by destruct (decide (length refs1 = 0%nat)), (decide (length refs2 = 0%nat)). }
  destruct (skip_classify_false _ Hskip) as (m & Hm & Hq).
  destruct (Hsame m Hm Hq) as (r1 & r2 & _ & _ & Hr1 & Hr2 & _).
  destruct refs1 as [|x1 refs1]; [by rewrite index_nil in Hr1|].
  destruct refs2 as [|x2 refs2]; [by rewrite index_nil in Hr2|].
  simpl. clear m Hm Hq r1 r2 Hr1 Hr2.
  rewrite (sortedSrcs_unique _ _ iter2 iter1 (reflexivity _)).
  rewrite (contentChecksums_ext _ (x1 :: refs1) (x2 :: refs2)).
  - destruct (contentChecksums _ _) as [dgsts| |]; simpl; [|done..].
    apply forEach_ext. intros keys _. by apply refinedKey_op.
  - intros s (m & Hm & Hq & ->)%elem_of_sortedSrcs.
    destruct (Hsame m Hm Hq) as (r1 & r2 & i1 & i2 & Hr1 & Hr2 & Hi1 & Hi2 & Hc).
    exists r1, r2. split; [done|]. split; [done|].
    unfold checksumTask. by rewrite Hi1, Hi2.
Qed.

Lemma ContentKeys_content_determined_witness :
  @ContentKeys Ops.env Ops.endToEnd [] [["k0"; "k1"]; ["k0'"; "k1'"]] [Stored 0; Stored 1]
  = @ContentKeys Ops.env Ops.endToEnd [1%nat] [["k0"; "k1"]; ["k0'"; "k1'"]] [Stored 0; Stored 2].
Proof.
  apply (@ContentKeys_content_determined Ops.env); [reflexivity|].
  intros m Hm Hq. simpl in Hm.
  apply elem_of_cons in Hm as [->|Hm]; [discriminate Hq|].
  apply elem_of_cons in Hm as [->|Hm]; [|by apply elem_of_nil in Hm].
  exists (Stored 1), (Stored 2), (Stored 1), (Stored 2).
  repeat split; reflexivity.
Defined.

(** ** Progress notification: inputs before the vertex *)

Definition started (wd : world) (p : ptr) : Prop :=
  client.Started (clientVertex (heap wd p)) ≠ None.

(** an event of [notifyCompleted(ctx, true, nil)] *)
Definition completedCached (cv : client.Vertex) : Prop :=
  client.Started cv ≠ None ∧ client.Completed cv ≠ None ∧ client.Cached cv = true.

(** [p] has been reported as completed from cache in the events [evs] *)
Definition marked (wd0 : world) (evs : list (string * client.Vertex)) (p : ptr) : Prop :=
  ∃ cv, (digest (heap wd0 p), cv) ∈ evs ∧ completedCached cv.

(** the vertices [notifyStarted] of [v] has to mark: those reached from [v]
    through inputs that are not started *)
Inductive unstartedAncestor (wd : world) (v : ptr) : ptr → Prop :=
  | ua_input i :
      i ∈ inputs (heap wd v) → ¬ started wd (input_vertex i) →
      unstartedAncestor wd v (input_vertex i)
  | ua_step u i :
      unstartedAncestor wd v u →
      i ∈ inputs (heap wd u) → ¬ started wd (input_vertex i) →
      unstartedAncestor wd v (input_vertex i).

Section notification.
(** the world when the outermost call starts *)
Variable wd0 : world.

Definition sameGraph (wd : world) : Prop :=
  ∀ p, inputs (heap wd p) = inputs (heap wd0 p) ∧ digest (heap wd p) = digest (heap wd0 p).

(** what holds of the world [wd] and of the events [tr] written since the
    outermost call started *)
Record Inv (wd : world) (tr : list (string * client.Vertex)) : Prop := {
  inv_graph : sameGraph wd;
  inv_progress : progress wd = progress wd0 ++ tr;
  inv_started : ∀ p, started wd0 p → started wd p;
  inv_events : Forall (λ ev, completedCached ev.2) tr;
  inv_marked : ∀ p, ¬ started wd0 p → started wd p →
    (∀ i, i ∈ inputs (heap wd0 p) → started wd (input_vertex i)) ∧
    ∃ l1 cv l2, tr = l1 ++ (digest (heap wd0 p), cv) :: l2 ∧ completedCached cv ∧
      ∀ i, i ∈ inputs (heap wd0 p) → ¬ started wd0 (input_vertex i) →
           marked wd0 l1 (input_vertex i);
}.

Definition monotone (wd wd' : world) : Prop := ∀ p, started wd p → started wd' p.

(** the specification of [recursiveMarkCached] *)
Definition marksInputs (f : ptr → world → option world) : Prop :=
  ∀ v wd tr wd', Inv wd tr → f v wd = Some wd' →
    ∃ tr', Inv wd' (tr ++ tr') ∧ monotone wd wd' ∧
           ∀ i, i ∈ inputs (heap wd0 v) → started wd' (input_vertex i).

Lemma Inv_tick wd tr : Inv wd tr → Inv (tick wd) tr.
Proof. by intros []. Qed.

Lemma marked_app l1 l2 p : marked wd0 l1 p → marked wd0 (l1 ++ l2) p.
Proof. intros (cv & Hin & Hcc). exists cv. split; [|done]. apply elem_of_app. by left. Qed.

Lemma notifyCompletedWith_marks f v err wd tr wd' :
  marksInputs f → Inv wd tr →
  notifyCompletedWith f v true err wd = Some wd' →
  ∃ tr', Inv wd' (tr ++ tr') ∧ monotone wd wd' ∧ started wd' v.
Proof.
  intros Hf Hinv. unfold notifyCompletedWith.
  destruct (f v (tick wd)) as [wd1|] eqn:Hrmc; simpl; [|done].
  destruct (Hf _ _ _ _ (Inv_tick _ _ Hinv) Hrmc) as (tr1 & Hinv1 & Hmono1 & Hin1).
  set (cv0 := if client.Started (clientVertex (heap wd1 v)) is None
              then setStarted (Some (clock wd)) (clientVertex (heap wd1 v))
              else clientVertex (heap wd1 v)).
  set (cv1 := setCached true (setCompleted (Some (clock wd)) cv0)).
  set (cv := if err is Some text then setError text cv1 else cv1).
  intros [= <-].
  assert (completedCached cv) as Hcc.
  { assert (completedCached cv1) as Hcc1.
    { unfold completedCached, cv1, cv0. simpl. split; [|done].
      by destruct (client.Started (clientVertex (heap wd1 v))) eqn:Hs; simpl; rewrite ?Hs. }
    unfold cv. by destruct err. }
  assert (∀ p, started wd1 p → started (pw_Write (digest (heap wd1 v)) cv
            (setClientVertex v cv wd1)) p) as Hmono2.
  { intros p Hp. unfold started. simpl. destruct (decide (p = v)); [|done].
    simpl. apply Hcc. }
  destruct Hinv1 as [Hg1 Hp1 Hs1 He1 Hm1].
  exists (tr1 ++ [(digest (heap wd1 v), cv)]). split; [split|split].
  - intros p. simpl. destruct (decide (p = v)) as [->|]; simpl; apply Hg1.
  - simpl. by rewrite Hp1, !app_assoc.
  - intros p Hp. by apply Hmono2, Hs1.
  - rewrite app_assoc. apply Forall_app. split; [done|]. by apply Forall_singleton.
  - intros p Hp0 Hp. destruct (decide (p = v)) as [->|Hne].
    + split.
      * intros i Hi. by apply Hmono2, Hin1.
      * exists (tr ++ tr1), cv, []. rewrite (proj2 (Hg1 v)), app_assoc.
        split; [done|]. split; [done|].
        intros i Hi Hi0.
        destruct (Hm1 (input_vertex i) Hi0 (Hin1 i Hi)) as (_ & l1 & cvi & l2 & -> & Hcci & _).
        exists cvi. split; [|done]. apply elem_of_app. right. left.
    + assert (started wd1 p) as Hp1'.
      { unfold started in *. simpl in Hp. by rewrite decide_False in Hp. }
      destruct (Hm1 p Hp0 Hp1') as (Hin & l1 & cvp & l2 & Heq & Hccp & Hl1). split.
      * intros i Hi. by apply Hmono2, Hin.
      * exists l1, cvp, (l2 ++ [(digest (heap wd1 v), cv)]).
        split; [|done]. by rewrite app_assoc, Heq, <- app_assoc.
  - intros p Hp. by apply Hmono2, Hmono1.
  - unfold started. simpl. rewrite decide_True by done. simpl. apply Hcc.
Qed.

Lemma recursiveMarkCached_marks fuel : marksInputs (recursiveMarkCached fuel).
Proof.
  induction fuel as [|fuel IH]; intros v wd tr wd' Hinv; simpl; [done|].
  rewrite (proj1 (inv_graph _ _ Hinv v)).
  generalize (inputs (heap wd0 v)) as l. clear v. intros l. revert wd tr Hinv.
  induction l as [|inp l IHl]; intros wd tr Hinv; simpl.
  - intros [= <-]. exists []. rewrite app_nil_r. split; [done|].
    split; [by intros p Hp|]. intros i Hi. by apply elem_of_nil in Hi.
  - destruct (client.Started (clientVertex (heap wd (input_vertex inp)))) as [t|] eqn:Hst.
    + simpl. intros Hl. destruct (IHl _ _ Hinv Hl) as (tr' & Hinv' & Hmono & Hin).
      exists tr'. split; [done|]. split; [done|].
      intros i [->|Hi]%elem_of_cons; [|by apply Hin].
      apply Hmono. unfold started. by rewrite Hst.
    + destruct (recursiveMarkCached fuel (input_vertex inp) wd) as [wd1|] eqn:H1;
        simpl; [|done].
      destruct (IH _ _ _ _ Hinv H1) as (tr1 & Hinv1 & Hmono1 & _).
      destruct (notifyCompletedWith _ _ _ _ wd1) as [wd2|] eqn:H2; simpl; [|done].
      destruct (notifyCompletedWith_marks _ _ _ _ _ _ IH Hinv1 H2)
        as (tr2 & Hinv2 & Hmono2 & Hst2).
      intros Hl. destruct (IHl _ _ Hinv2 Hl) as (tr3 & Hinv3 & Hmono3 & Hin).
      exists (tr1 ++ tr2 ++ tr3). rewrite !app_assoc in *. split; [done|].
      split; [intros p Hp; by apply Hmono3, Hmono2, Hmono1|].
      intros i [->|Hi]%elem_of_cons; [by apply Hmono3|by apply Hin].
Qed.

End notification.

Lemma unstartedAncestor_unstarted wd v u : unstartedAncestor wd v u → ¬ started wd u.
Proof. by destruct 1. Qed.

Lemma Inv_init wd : Inv wd wd [].
Proof.
  split; [done|by rewrite app_nil_r|done|constructor|]. by intros p Hn Hs.
Qed.

Section returns.
Variable wd0 : world.
Variable rank : ptr → nat.
Hypothesis acyclic :
  ∀ p i, i ∈ inputs (heap wd0 p) → (rank (input_vertex i) < rank p)%nat.

(** on an acyclic graph the recursion returns when the bound exceeds the
    rank of the vertex *)
Lemma recursiveMarkCached_returns fuel v wd :
  sameGraph wd0 wd → (rank v < fuel)%nat →
  ∃ wd', recursiveMarkCached fuel v wd = Some wd' ∧ sameGraph wd0 wd'.
Proof.
  revert v wd. induction fuel as [|fuel IH]; intros v wd Hg Hfuel; [lia|]. simpl.
  rewrite (proj1 (Hg v)).
  assert (∀ i, i ∈ inputs (heap wd0 v) → (rank (input_vertex i) < fuel)%nat) as Hl.
  { intros i Hi. apply acyclic in Hi. lia. }
  revert Hl. generalize (inputs (heap wd0 v)) as l. clear v Hfuel. intros l.
  revert wd Hg. induction l as [|inp l IHl]; intros wd Hg Hl; simpl; [by exists wd|].
  assert (rank (input_vertex inp) < fuel)%nat as Hinp by (apply Hl; left).
  assert (∀ i, i ∈ l → (rank (input_vertex i) < fuel)%nat) as Hl'
    by (intros i Hi; apply Hl; by right).
  destruct (client.Started (clientVertex (heap wd (input_vertex inp)))); simpl;
    [by apply IHl|].
  destruct (IH _ _ Hg Hinp) as (wd1 & -> & Hg1). simpl.
  unfold notifyCompletedWith.
  destruct (IH (input_vertex inp) (tick wd1) Hg1 Hinp) as (wd2 & -> & Hg2). simpl.
  apply IHl; [|done].
  intros p. simpl. destruct (decide (p = input_vertex inp)) as [->|]; simpl; apply Hg2.
Qed.
End returns.

(** C5: on an acyclic graph [notifyStarted] of a vertex returns, and the
    events it writes are a list [pre] followed by the started event of
    the vertex itself.  Every event of [pre] reports a vertex as completed
    with cached set.  Every vertex reached from the vertex through inputs
    that were not started, and so every input of it that was not started,
    has such an event in [pre], and all of its own inputs that were not
    started have theirs before it. *)
Theorem notifyStarted_inputs_first (rank : ptr → nat) (fuel : nat) (v : ptr) (wd : world) :
  (∀ p i, i ∈ inputs (heap wd p) → (rank (input_vertex i) < rank p)%nat) →
  (rank v < fuel)%nat →
  ∃ wd' pre own,
    notifyStarted fuel v wd = Some wd' ∧
    progress wd' = progress wd ++ pre ++ [(digest (heap wd v), own)] ∧
    clientVertex (heap wd' v) = own ∧
    client.Started own ≠ None ∧ client.Completed own = None ∧
    Forall (λ ev, completedCached ev.2) pre ∧
    ∀ u, unstartedAncestor wd v u →
      ∃ l1 cv l2, pre = l1 ++ (digest (heap wd u), cv) :: l2 ∧ completedCached cv ∧
        ∀ i, i ∈ inputs (heap wd u) → ¬ started wd (input_vertex i) →
             marked wd l1 (input_vertex i).
Proof.
  intros Hacyc Hfuel. unfold notifyStarted.
  destruct (recursiveMarkCached_returns wd rank Hacyc fuel v wd) as (wd1 & Hrmc & Hg1);
    [done|done|].
  rewrite Hrmc. simpl.
  destruct (recursiveMarkCached_marks wd fuel v wd [] wd1 (Inv_init wd) Hrmc)
    as (pre & Hinv & _ & Hin). simpl in Hinv.
  eexists _, pre, _. split; [reflexivity|].
  destruct Hinv as [_ Hp _ He Hm]. simpl.
  split; [by rewrite Hp, (proj2 (Hg1 v)), app_assoc|].
  split; [by rewrite decide_True|].
  split; [done|]. split; [done|]. split; [done|].
  assert (∀ u, unstartedAncestor wd v u → started wd1 u) as Hclosure.
  { induction 1 as [i Hi Hn|u i Hu IH Hi Hn]; [by apply Hin|].
    by apply (Hm u (unstartedAncestor_unstarted _ _ _ Hu) IH). }
  intros u Hu.
  destruct (Hm u (unstartedAncestor_unstarted _ _ _ Hu) (Hclosure u Hu))
    as (_ & l1 & cv & l2 & Heq & Hcc & Hl1).
  by exists l1, cv, l2.
Qed.

(** the chain of the specification: C depends on B, B depends on A, and
    no vertex is started *)
Module Chain.
Definition node (d : Digest) (n : string) (ins : list ptr) : vertex :=
  {| inputs := (λ p, {| input_index := 0; input_vertex := p |}) <$> ins;
     digest := d;
     clientVertex := {| client.Inputs := []; client.Digest := d; client.Name := n;
                        client.Started := None; client.Completed := None;
                        client.Cached := false; client.Error := "" |};
     name := n |}.
Definition A : ptr := 0%nat.
Definition B : ptr := 1%nat.
Definition C : ptr := 2%nat.
Definition graph (p : ptr) : vertex :=
  match p with
  | 0 => node "sha256:a" "A" []
  | 1 => node "sha256:b" "B" [A]
  | 2 => node "sha256:c" "C" [B]
  | _ => node "" "" []
  end%nat.
Definition start : world :=
  initClientVertex C (initClientVertex B (initClientVertex A
    {| heap := graph; clock := 0%nat; progress := [] |})).
End Chain.

Example notifyStarted_chain :
  progress <$> notifyStarted 3 Chain.C Chain.start =
  Some [ ("sha256:a", {| client.Inputs := []; client.Digest := "sha256:a";
                         client.Name := "A"; client.Started := Some 0%nat;
                         client.Completed := Some 0%nat; client.Cached := true;
                         client.Error := "" |});
         ("sha256:b", {| client.Inputs := ["sha256:a"]; client.Digest := "sha256:b";
                         client.Name := "B"; client.Started := Some 1%nat;
                         client.Completed := Some 1%nat; client.Cached := true;
                         client.Error := "" |});
         ("sha256:c", {| client.Inputs := ["sha256:b"]; client.Digest := "sha256:c";
                         client.Name := "C"; client.Started := Some 2%nat;
                         client.Completed := None; client.Cached := false;
                         client.Error := "" |}) ].
Proof. reflexivity. Qed.

Lemma notifyStarted_inputs_first_witness :
  ∃ wd' pre own,
    notifyStarted 3 Chain.C Chain.start = Some wd' ∧
    progress wd' = pre ++ [("sha256:c", own)] ∧
    ∃ l1 cv l2, pre = l1 ++ ("sha256:b", cv) :: l2 ∧ completedCached cv ∧
      marked Chain.start l1 Chain.A.
Proof.
  assert (∀ p i, i ∈ inputs (heap Chain.start p) →
            (id (input_vertex i) < id p)%nat) as Hacyc.
  { intros [|[|[|p]]] i Hi; simpl in Hi.
    - by apply elem_of_nil in Hi.
    - apply list_elem_of_singleton in Hi as ->. cbv. lia.
    - apply list_elem_of_singleton in Hi as ->. cbv. lia.
    - by apply elem_of_nil in Hi. }
  destruct (notifyStarted_inputs_first id 3 Chain.C Chain.start Hacyc)
    as (wd' & pre & own & Hrun & Hprog & _ & _ & _ & _ & Hanc); [cbv; lia|].
  exists wd', pre, own. split; [exact Hrun|]. split; [exact Hprog|].
  destruct (Hanc Chain.B) as (l1 & cv & l2 & Hpre & Hcc & Hl1).
  { apply (ua_input Chain.start Chain.C {| input_index := 0; input_vertex := Chain.B |}).
    - simpl. left.
    - intros Hs. by apply Hs. }
  exists l1, cv, l2. split; [exact Hpre|]. split; [exact Hcc|].
  apply (Hl1 {| input_index := 0; input_vertex := Chain.A |}).
  - simpl. left.
  - intros Hs. by apply Hs.
Defined.

(** * Further properties *)

(** ** Run: the call of the worker *)

Section worker_call.
Context `{Externals}.

(** the calls of [e.w.Exec] in a trace, with their arguments *)
Definition execCalls (tr : list Event) : list (worker.Meta * Reference * list worker.Mount) :=
  omap (λ ev, match ev with EvExec meta root ms => Some (meta, root, ms) | _ => None end) tr.

(** the reference a mount declaration resolves to: [ref] in the loop of [Run] *)
Definition resolvedRef (inputs : list Reference) (m : pb.Mount) : Reference :=
  if decide (pb.Input m ≠ pb_Empty) then
    match index inputs (pb.Input m) with
    | Ok inp => default Nil (toImmutableRef inp)
    | _ => Nil
    end
  else Nil.

(** the input of a mount is there and is storage backed *)
Definition resolves (inputs : list Reference) (m : pb.Mount) : Prop :=
  pb.Input m = pb_Empty ∨
  ∃ inp ref, index inputs (pb.Input m) = Ok inp ∧ toImmutableRef inp = Some ref.

(** a mount with an output gets a shared clone of its input, or a new
    mutable reference *)
Definition clones (inputs : list Reference) (m : pb.Mount) : bool :=
  pb.Readonly m && bool_decide (resolvedRef inputs m ≠ Nil)
  && bool_decide (pb.Dest m ≠ pb_RootMount).

Ltac mountStep_output m :=
  simpl;
  (destruct (decide (pb.Output m ≠ pb_SkipOutput));
   [destruct (pb.Readonly m && _ && _) eqn:?Hclone;
    [|destruct (cache.New _ _ _ _)]|]);
  try destruct (decide (pb.Dest m = pb_RootMount)).

Ltac mountStep_cases inputs m :=
  unfold mountStep, mbind, run_bind, result_bind, throw, lift, gets, modify, mret, run_ret;
  unfold clones, resolvedRef, resolves;
  destruct (decide (pb.Input m ≠ pb_Empty)) as [?Hi|?Hi];
  [destruct (decide (Z.of_nat (length inputs) < pb.Input m)%Z);
   [|destruct (index inputs (pb.Input m)) as [?inp| |] eqn:?Hidx;
     [destruct (toImmutableRef inp) as [?ref|] eqn:?Href; [mountStep_output m|]|..]]
  |mountStep_output m];
  intros ?Hstep; simplify_eq; simpl;
  try match goal with
      | Hc : _ && false && _ = true |- _ =>
          rewrite andb_false_r in Hc; discriminate Hc
      end.

(** what one successful round of the loop does to the variables *)
Lemma mountStep_Ok e inputs m s s' :
  mountStep e inputs m s = (Ok (), s') →
  resolves inputs m ∧
  outputs s' = outputs s ++
    (if decide (pb.Output m ≠ pb_SkipOutput) then
       [if clones inputs m then SharedClone (resolvedRef inputs m) (allocated s)
        else Active (allocated s)]
     else []) ∧
  eraseAlloc (root s') =
    (if decide (pb.Dest m = pb_RootMount) then auxSrc inputs m else eraseAlloc (root s)).
Proof.
  assert (∀ inp ref, toImmutableRef inp = Some ref → eraseAlloc ref = ref) as Her
    by apply eraseAlloc_toImmutableRef.
  unfold auxSrc. mountStep_cases inputs m;
    rewrite ?app_nil_r;
    (split; [first [by (right; eauto)
                   |left; destruct (decide (pb.Input m = pb_Empty)) as [|Hne];
                    [done|by destruct (Hi Hne)]]|]);
    (split; [done|]); try done; by eapply Her.
Qed.

(** in every round, whatever its outcome, the i-th output is the i-th
    allocation *)
Definition allocRank (r : Reference) : option nat :=
  match r with SharedClone _ n | Active n => Some n | _ => None end.

Lemma mountStep_allocRank e inputs m s r s' :
  mountStep e inputs m s = (r, s') →
  allocRank <$> outputs s = Some <$> seq 0 (allocated s) →
  allocRank <$> outputs s' = Some <$> seq 0 (allocated s').
Proof.
  intros Hstep Hs. revert Hstep. mountStep_cases inputs m; try done;
    change (Some 0%nat :: list_fmap nat (option nat) Some (seq 1 (allocated s)))
      with (Some <$> seq 0 (S (allocated s)));
    by rewrite seq_S, !fmap_app, Hs.
Qed.

Lemma forM_mountStep_allocRank e inputs ms s r s' :
  forM_ (mountStep e inputs) ms s = (r, s') →
  allocRank <$> outputs s = Some <$> seq 0 (allocated s) →
  allocRank <$> outputs s' = Some <$> seq 0 (allocated s').
Proof.
  revert s. induction ms as [|m ms IH]; intros s; simpl; [by intros [= <- <-]|].
  unfold mbind, run_bind.
  destruct (mountStep e inputs m s) as [[[]| |] s1] eqn:Hstep;
    intros Hrest Hs; pose proof (mountStep_allocRank _ _ _ _ _ _ Hstep Hs) as Hs1.
  - by eapply IH.
  - by injection Hrest as <- <-.
  - by injection Hrest as <- <-.
Qed.

(** the pending output of a mount that declares one *)
Definition pendingFor (inputs : list Reference) (m : pb.Mount) (r : Reference) : Prop :=
  if clones inputs m then ∃ n, r = SharedClone (resolvedRef inputs m) n
  else ∃ n, r = Active n.

(** the mount the root is taken from: the last one on [pb.RootMount] *)
Definition rootMount (ms : list pb.Mount) : option pb.Mount :=
  last (filter (λ m, pb.Dest m = pb_RootMount) ms).

Lemma forM_mountStep_Ok e inputs ms s s' :
  forM_ (mountStep e inputs) ms s = (Ok (), s') →
  Forall (resolves inputs) ms ∧
  (∃ outs, outputs s' = outputs s ++ outs ∧
     Forall2 (pendingFor inputs) (filter (λ m, pb.Output m ≠ pb_SkipOutput) ms) outs) ∧
  eraseAlloc (root s') =
    match rootMount ms with
    | Some m => auxSrc inputs m
    | None => eraseAlloc (root s)
    end.
Proof.
  revert s. induction ms as [|m ms IH]; intros s; simpl.
  - intros [= <-]. split; [constructor|]. split; [|done].
    exists []. by rewrite app_nil_r.
  - unfold mbind, run_bind.
    destruct (mountStep e inputs m s) as [[[]| |] s1] eqn:Hstep; [|done..].
    apply mountStep_Ok in Hstep as (Hres & Hout & Hroot).
    intros (Hall & (outs & Houts & Hpend) & Hroot')%IH.
    split; [by constructor|]. split.
    + rewrite filter_cons. destruct (decide (pb.Output m ≠ pb_SkipOutput)).
      * exists ((if clones inputs m
                 then SharedClone (resolvedRef inputs m) (allocated s)
                 else Active (allocated s)) :: outs).
        rewrite Houts, Hout, <- app_assoc. split; [done|].
        constructor; [|done]. unfold pendingFor. destruct (clones inputs m); eauto.
      * exists outs. by rewrite Houts, Hout, app_nil_r.
    + rewrite Hroot'. unfold rootMount. rewrite filter_cons.
      destruct (decide (pb.Dest m = pb_RootMount)); [|by rewrite Hroot].
      destruct (filter (λ m0, pb.Dest m0 = pb_RootMount) ms) as [|m' ms'];
        [by rewrite Hroot|].
      rewrite last_cons_cons.
      destruct (last (m' :: ms')) eqn:Hl; [done|]. by apply last_None in Hl.
Qed.

Lemma workerMounts_execCalls tr : workerMounts tr = snd <$> execCalls tr.
Proof.
  unfold workerMounts, execCalls.
  induction tr as [|ev tr IH]; [done|]. destruct ev; csimpl; by f_equal.
Qed.

Lemma execCalls_app tr1 tr2 : execCalls (tr1 ++ tr2) = execCalls tr1 ++ execCalls tr2.
Proof. apply omap_app. Qed.

Lemma execCalls_nil tr : workerMounts tr = [] → execCalls tr = [].
Proof. rewrite workerMounts_execCalls. apply fmap_nil_inv. Qed.

(** [meta] in [Run] *)
Definition metaOf (e : execOp) : worker.Meta :=
  {| worker.Args := pb.Args (pb.Meta_ (op e));
     worker.Env := pb.Env (pb.Meta_ (op e));
     worker.Cwd := pb.Cwd (pb.Meta_ (op e)) |}.

Lemma execCalls_releaseOutputs s : execCalls (releaseOutputs s) = [].
Proof. apply execCalls_nil, workerMounts_releaseOutputs. Qed.

Lemma commitLoop_execCalls e i os refs s r s' :
  commitLoop e i os refs s = (r, s') → execCalls (trace s') = execCalls (trace s).
Proof.
  revert i refs s. induction os as [|o os IH]; intros i refs s; simpl.
  - by intros [= <- <-].
  - unfold mbind, run_bind, modify, throw, lift, mret, run_ret.
    destruct (asMutableRef o) as [n|].
    + destruct (cache.Commit (cm e) n); [by intros [= <- <-]|].
      intros ->%IH. simpl. rewrite execCalls_app. simpl. by rewrite app_nil_r.
    + by intros ->%IH.
Qed.

(** the calls of the worker in [Run], from the loop over the mounts *)
Lemma Run_execCalls e inputs :
  execCalls (Run e inputs).2 =
    match forM_ (mountStep e inputs) (pb.Mounts (op e)) initial with
    | (Ok _, s) => [(metaOf e, root s, sort_Slice mountLess (mounts s))]
    | _ => []
    end.
Proof.
  pose proof (Run_workerMounts e inputs) as Hw.
  unfold Run, runBody, mbind, run_bind in *.
  destruct (forM_ _ _ initial) as [[[]| |] s] eqn:Hloop; [|by apply execCalls_nil..].
  apply forM_mountStep_inv in Hloop as [Htr%execCalls_nil _]. simpl in Htr.
  clear Hw. unfold modify, gets, throw, lift. simpl.
  destruct (worker.Exec _ _ _ _); simpl.
  - by rewrite !execCalls_app, execCalls_releaseOutputs, Htr.
  - destruct (commitLoop _ _ _ _ _) as [r s'] eqn:Hc.
    apply commitLoop_execCalls in Hc. simpl in *.
    by rewrite execCalls_app, execCalls_releaseOutputs, Hc, execCalls_app, Htr.
Qed.

(** the commit loop, whatever its outcome: the slots it went over are
    nil, the others are as they were; when it runs to its end, mutable
    outputs are returned committed and the others as they are *)
Definition committed (o : Reference) : Reference :=
  match asMutableRef o with Some n => Committed n | None => o end.

Lemma commitLoop_outputs e i os refs s r s' :
  commitLoop e i os refs s = (r, s') →
  length (outputs s) = (i + length os)%nat →
  ∃ k, (k ≤ length os)%nat ∧
       outputs s' = take i (outputs s) ++ replicate k Nil ++ drop (i + k) (outputs s) ∧
       ∀ refs', r = Ok refs' → k = length os ∧ refs' = refs ++ (committed <$> os).
Proof.
  revert i refs s. induction os as [|o os IH]; intros i refs s; simpl.
  - intros [= <- <-] Hlen. exists 0%nat. split; [done|]. simpl.
    rewrite Nat.add_0_r, take_drop. split; [done|]. intros ? [= <-]. by rewrite app_nil_r.
  - unfold mbind, run_bind, modify, throw, lift, mret, run_ret. intros Hc Hlen.
    assert (∀ s1, outputs s1 = <[i:=Nil]> (outputs s) →
              commitLoop e (S i) os (refs ++ [committed o]) s1 = (r, s') →
              ∃ k, (k ≤ S (length os))%nat ∧
                outputs s' = take i (outputs s) ++ replicate k Nil
                             ++ drop (i + k) (outputs s) ∧
                ∀ refs', r = Ok refs' →
                  k = S (length os) ∧ refs' = refs ++ committed o :: (committed <$> os))
      as Hstep.
    { intros s1 Hout Hc1. destruct (IH _ _ _ Hc1) as (k & Hk & Hout' & Hrefs).
      { rewrite Hout, length_insert. lia. }
      exists (S k). split; [lia|]. split.
      - rewrite Hout', Hout.
        rewrite (take_S_r _ _ Nil) by (apply list_lookup_insert_eq; lia).
        rewrite take_insert_ge, drop_insert_lt by lia.
        rewrite <- app_assoc. simpl. by rewrite Nat.add_succ_r.
      - intros refs' Hr. destruct (Hrefs refs' Hr) as [-> ->].
        by rewrite <- app_assoc. }
    revert Hc. unfold committed in *. destruct (asMutableRef o) as [n|].
    + destruct (cache.Commit (cm e) n).
      * intros [= <- <-]. exists 0%nat. split; [lia|]. simpl.
        by rewrite Nat.add_0_r, take_drop.
      * by apply Hstep.
    + by apply Hstep.
Qed.

Lemma filter_not_Nil_drop (k : nat) (outs : list Reference) :
  Forall (λ o, o ≠ Nil) outs →
  filter (λ o, o ≠ Nil) (replicate k Nil ++ drop k outs) = drop k outs.
Proof.
  intros Hn. rewrite filter_app, filter_replicate_Nil. simpl.
  apply filter_all. by apply Forall_drop.
Qed.

Lemma commitLoop_trace e i os refs s r s' :
  commitLoop e i os refs s = (r, s') →
  released (trace s') = released (trace s) ∧
  ∃ more, allocatedRefs (trace s') = allocatedRefs (trace s) ++ more.
Proof.
  revert i refs s. induction os as [|o os IH]; intros i refs s; simpl.
  - intros [= <- <-]. split; [done|]. exists []. by rewrite app_nil_r.
  - unfold mbind, run_bind, modify, throw, lift, mret, run_ret.
    destruct (asMutableRef o) as [n|].
    + destruct (cache.Commit (cm e) n).
      * intros [= <- <-]. split; [done|]. exists []. by rewrite app_nil_r.
      * intros [-> [more ->]]%IH. simpl.
        rewrite released_app, allocatedRefs_app. simpl. rewrite app_nil_r.
        split; [done|]. exists (Committed n :: more). by rewrite <- app_assoc.
    + by intros [-> [more ->]]%IH; eauto.
Qed.

(** what [Run] releases and what it has allocated, at every exit: the
    outputs of the loop over the mounts are the first allocations, and
    the released references are the outputs from some slot on *)
Lemma Run_released e inputs :
  ∃ r s,
    forM_ (mountStep e inputs) (pb.Mounts (op e)) initial = (r, s) ∧
    ∃ k more,
    released (Run e inputs).2 = drop k (outputs s) ∧
    allocatedRefs (Run e inputs).2 = outputs s ++ more ∧
    ((∃ refs, (Run e inputs).1 = Ok refs) → k = length (outputs s)).
Proof.
  unfold Run, runBody, mbind, run_bind.
  destruct (forM_ _ _ initial) as [r s] eqn:Hloop.
  destruct (forM_mountStep_settingUp _ _ _ _ _ _ Hloop settingUp_initial) as (Ho & Hn & Hr).
  exists r, s. split; [done|].
  assert (∀ s1 tr, outputs s1 = outputs s → trace s1 = trace s ++ tr →
            released tr = [] → allocatedRefs tr = [] →
            released (trace s1 ++ releaseOutputs s1) = drop 0 (outputs s) ∧
            allocatedRefs (trace s1 ++ releaseOutputs s1) = outputs s ++ [])
    as Hexit.
  { intros s1 tr Ho1 Htr1 Hr' Ha'.
    rewrite !released_app, !allocatedRefs_app, released_releaseOutputs,
      allocatedRefs_releaseOutputs, Htr1, released_app, allocatedRefs_app,
      Hr, Hr', Ha', Ho1, <- Ho, !app_nil_r. simpl.
    split; [|done]. by apply filter_all. }
  destruct r as [[]|err|p]; simpl.
  2,3: exists 0%nat, [];
       destruct (Hexit s [] eq_refl (eq_sym (app_nil_r _)) eq_refl eq_refl) as [-> ->];
       repeat split; by intros [? ?].
  unfold modify, gets, throw, lift. simpl.
  destruct (worker.Exec _ _ _ _); simpl.
  { exists 0%nat, [].
    destruct (Hexit
      (emit [EvExec (metaOf e) (root s) (sort_Slice mountLess (mounts s))]
         (setMounts (sort_Slice mountLess (mounts s)) s))
      [EvExec (metaOf e) (root s) (sort_Slice mountLess (mounts s))]
      eq_refl eq_refl eq_refl eq_refl) as [Hrel Hall].
    split; [exact Hrel|]. split; [exact Hall|]. by intros [? ?]. }
  destruct (commitLoop _ _ _ _ _) as [r s'] eqn:Hc. simpl.
  destruct (commitLoop_outputs _ _ _ _ _ _ _ Hc eq_refl) as (k & Hk & Hout & Hrefs).
  destruct (commitLoop_trace _ _ _ _ _ _ _ Hc) as [Hrel' [more Hall']]. simpl in Hrel', Hall'.
  rewrite released_app, Hr in Hrel'. rewrite allocatedRefs_app, <- Ho in Hall'.
  simpl in Hrel', Hall'. rewrite app_nil_r in Hall'.
  exists k, more. simpl in Hout.
  rewrite released_app, allocatedRefs_app, released_releaseOutputs,
    allocatedRefs_releaseOutputs, Hrel', Hall', Hout, app_nil_r. simpl.
  rewrite filter_not_Nil_drop by done. repeat split.
  intros [refs ->]. by destruct (Hrefs refs eq_refl) as [-> _].
Qed.

(** a reference returned for a mount that declares an output *)
Definition returnedFor (inputs : list Reference) (m : pb.Mount) (r : Reference) : Prop :=
  if clones inputs m then ∃ n, r = SharedClone (resolvedRef inputs m) n
  else ∃ n, r = Committed n.

Lemma Run_Ok_inv e inputs refs :
  (Run e inputs).1 = Ok refs →
  ∃ s, forM_ (mountStep e inputs) (pb.Mounts (op e)) initial = (Ok (), s) ∧
       worker.Exec (w e) (metaOf e) (root s) (sort_Slice mountLess (mounts s)) = None ∧
       refs = committed <$> outputs s.
Proof.
  unfold Run, runBody, mbind, run_bind.
  destruct (forM_ _ _ initial) as [[[]| |] s] eqn:Hloop; [|done..].
  unfold modify, gets, throw, lift. simpl.
  destruct (worker.Exec _ _ _ _) eqn:Hexec; [done|].
  destruct (commitLoop _ _ _ _ _) as [r s'] eqn:Hc. simpl. intros ->.
  destruct (commitLoop_outputs _ _ _ _ _ _ _ Hc eq_refl) as (k & _ & _ & Hrefs).
  exists s. split; [done|]. split; [exact Hexec|]. by destruct (Hrefs refs eq_refl).
Qed.

Lemma Run_call_inv e inputs call :
  call ∈ execCalls (Run e inputs).2 →
  ∃ s, forM_ (mountStep e inputs) (pb.Mounts (op e)) initial = (Ok (), s) ∧
       call = (metaOf e, root s, sort_Slice mountLess (mounts s)) ∧
       execCalls (Run e inputs).2 = [call].
Proof.
  rewrite Run_execCalls.
  destruct (forM_ _ _ initial) as [[[]| |] s] eqn:Hloop;
    [|by intros ?%elem_of_nil..].
  intros ->%list_elem_of_singleton. by exists s.
Qed.

(** X1: the worker is called at most once, with the arguments, the
    environment and the working directory of the definition, and only
    when the input of every mount is there and is storage backed. *)
Theorem Run_worker_only_after_setup e inputs meta root ms :
  (meta, root, ms) ∈ execCalls (Run e inputs).2 →
  execCalls (Run e inputs).2 = [(meta, root, ms)] ∧
  worker.Args meta = pb.Args (pb.Meta_ (op e)) ∧
  worker.Env meta = pb.Env (pb.Meta_ (op e)) ∧
  worker.Cwd meta = pb.Cwd (pb.Meta_ (op e)) ∧
  ∀ m, m ∈ pb.Mounts (op e) →
    pb.Input m = pb_Empty ∨
    ∃ inp ref, index inputs (pb.Input m) = Ok inp ∧ toImmutableRef inp = Some ref.
Proof.
  intros (s & Hloop & [= -> -> ->] & Hcalls)%Run_call_inv.
  split; [done|]. repeat (split; [done|]).
  apply forM_mountStep_Ok in Hloop as (Hall & _).
  intros m Hm. rewrite Forall_forall in Hall. by apply Hall.
Qed.

(** X2: the mounts passed to the worker are the declared mounts on other
    destinations than the root, one for each declaration, arranged so
    that no mount comes after one with a greater destination. *)
Theorem Run_worker_mounts e inputs meta root ms :
  (meta, root, ms) ∈ execCalls (Run e inputs).2 →
  StronglySorted (λ a b, ¬ GoString.lt (worker.Dest b) (worker.Dest a)) ms ∧
  mountShape <$> ms ≡ₚ
    auxMount inputs <$> filter (λ m, pb.Dest m ≠ pb_RootMount) (pb.Mounts (op e)).
Proof.
  intros (s & Hloop & [= -> -> ->] & Hcalls)%Run_call_inv. split.
  - eapply StronglySorted_weaken;
      [|apply (sort_Slice_by_key_sorted worker.Dest String.ltb
                 String_ltb_irrefl String_ltb_trans String_ltb_total)].
    unfold inOrder, byKey, GoString.lt. intros a b ->. done.
  - apply forM_mountStep_inv in Hloop as [_ Hms]. specialize (Hms eq_refl).
    simpl in Hms. by rewrite <- Hms, sort_Slice_Permutation.
Qed.

(** what one successful round of the loop does to [root] and to the
    number of allocations *)
Lemma mountStep_root e inputs m s s' :
  mountStep e inputs m s = (Ok (), s') →
  allocated s' =
    (allocated s + if decide (pb.Output m ≠ pb_SkipOutput) then 1 else 0)%nat ∧
  (pb.Dest m ≠ pb_RootMount → root s' = root s) ∧
  (pb.Dest m = pb_RootMount →
   if decide (pb.Output m = pb_SkipOutput) then root s' = resolvedRef inputs m
   else root s' = Active (allocated s) ∧
        cache.New (cm e) (resolvedRef inputs m) (description e m) (allocated s) = None).
Proof.
  unfold mountStep, mbind, run_bind, result_bind, throw, lift, gets, modify, mret, run_ret.
  unfold resolvedRef.
  destruct (decide (pb.Input m ≠ pb_Empty)) as [Hi|Hi];
    [destruct (decide (Z.of_nat (length inputs) < pb.Input m)%Z); [done|];
     destruct (index inputs (pb.Input m)) as [inp| |]; [|done..];
     destruct (toImmutableRef inp) as [ref|]; [|done]|];
    simpl;
    (destruct (decide (pb.Output m ≠ pb_SkipOutput)) as [Ho|Ho];
     [rewrite (decide_False (P := pb.Output m = pb_SkipOutput)) by done;
      destruct (decide (pb.Dest m = pb_RootMount)) as [Hd|Hd];
      [rewrite (bool_decide_eq_false_2 (pb.Dest m ≠ pb_RootMount)) by (by intros []);
       rewrite andb_false_r;
       destruct (cache.New _ _ _ _) eqn:Hnew; [done|]
      |destruct (pb.Readonly m && _ && _);
       [|destruct (cache.New _ _ _ _); [done|]]]
     |rewrite (decide_True (P := pb.Output m = pb_SkipOutput))
        by (by destruct (decide (pb.Output m = pb_SkipOutput)) as [|Hne];
              [|destruct Ho]);
      destruct (decide (pb.Dest m = pb_RootMount)) as [Hd|Hd]]);
    intros [= <-]; simpl; (split; [lia|]); by split.
Qed.

Lemma forM_mountStep_allocated e inputs ms s s' :
  forM_ (mountStep e inputs) ms s = (Ok (), s') →
  allocated s' =
    (allocated s + length (filter (λ m, pb.Output m ≠ pb_SkipOutput) ms))%nat.
Proof.
  revert s. induction ms as [|m ms IH]; intros s; simpl.
  - intros [= <-]. lia.
  - unfold mbind, run_bind.
    destruct (mountStep e inputs m s) as [[[]| |] s1] eqn:Hstep; [|done..].
    apply mountStep_root in Hstep as (Ha & _). intros ->%IH.
    rewrite filter_cons, Ha. by destruct (decide (pb.Output m ≠ pb_SkipOutput)); simpl; lia.
Qed.

Lemma forM_mountStep_keeps_root e inputs ms s s' :
  Forall (λ m, pb.Dest m ≠ pb_RootMount) ms →
  forM_ (mountStep e inputs) ms s = (Ok (), s') → root s' = root s.
Proof.
  intros Hms. revert s. induction Hms as [|m ms Hm Hms IH]; intros s; simpl.
  - by intros [= <-].
  - unfold mbind, run_bind.
    destruct (mountStep e inputs m s) as [[[]| |] s1] eqn:Hstep; [|done..].
    apply mountStep_root in Hstep as (_ & Hr & _). intros ->%IH. by apply Hr.
Qed.

Lemma forM_app {A} (f : A → run unit) l1 l2 s s' :
  forM_ f (l1 ++ l2) s = (Ok (), s') →
  ∃ s1, forM_ f l1 s = (Ok (), s1) ∧ forM_ f l2 s1 = (Ok (), s').
Proof.
  revert s. induction l1 as [|a l1 IH]; intros s; simpl; [by exists s|].
  unfold mbind, run_bind. destruct (f a s) as [[[]| |] s0]; [|done..]. apply IH.
Qed.

(** X3: the root passed to the worker is nil when no mount is declared on
    the root destination, and otherwise comes from the last mount
    declared on it: it is the reference of the mount's input when the
    mount declares no output, and otherwise the mutable reference that
    [e.cm.New] returned for this mount, called with the mount's input
    and description, which is the allocation of the call numbered by the
    mounts with an output that are declared before it. *)
Theorem Run_worker_root e inputs meta root ms :
  (meta, root, ms) ∈ execCalls (Run e inputs).2 →
  (Forall (λ m, pb.Dest m ≠ pb_RootMount) (pb.Mounts (op e)) → root = Nil) ∧
  ∀ pre m post,
    pb.Mounts (op e) = pre ++ m :: post →
    pb.Dest m = pb_RootMount →
    Forall (λ m', pb.Dest m' ≠ pb_RootMount) post →
    if decide (pb.Output m = pb_SkipOutput) then root = resolvedRef inputs m
    else
      let n := length (filter (λ m', pb.Output m' ≠ pb_SkipOutput) pre) in
      root = Active n ∧
      cache.New (cm e) (resolvedRef inputs m) (description e m) n = None.
Proof.
  intros (s & Hloop & [= -> -> ->] & Hcalls)%Run_call_inv. split.
  - intros Hno. by rewrite (forM_mountStep_keeps_root _ _ _ _ _ Hno Hloop).
  - intros pre m post Hms Hd Hpost. rewrite Hms in Hloop.
    apply forM_app in Hloop as (s1 & Hpre & Hrest). simpl in Hrest.
    unfold mbind, run_bind in Hrest.
    destruct (mountStep e inputs m s1) as [[[]| |] s2] eqn:Hstep; [|done..].
    rewrite (forM_mountStep_keeps_root _ _ _ _ _ Hpost Hrest).
    apply forM_mountStep_allocated in Hpre. simpl in Hpre. rewrite <- Hpre.
    apply mountStep_root in Hstep as (_ & _ & Hr). by apply Hr.
Qed.

(** X4: when the worker fails, [Run] returns its error wrapped with the
    arguments of the command, and every reference allocated by the call
    is released. *)
Theorem Run_worker_failure_cleanup e inputs meta root ms err :
  (meta, root, ms) ∈ execCalls (Run e inputs).2 →
  worker.Exec (w e) meta root ms = Some err →
  (Run e inputs).1 = Err (WorkerFailed (pb.Args (pb.Meta_ (op e))) err) ∧
  released (Run e inputs).2 = allocatedRefs (Run e inputs).2.
Proof.
  intros (s & Hloop & [= -> -> ->] & Hcalls)%Run_call_inv Hexec.
  assert ((Run e inputs).1 = Err (WorkerFailed (pb.Args (pb.Meta_ (op e))) err)) as Hres.
  { unfold Run, runBody, mbind, run_bind. rewrite Hloop.
    unfold modify, gets, throw, lift, metaOf in *. simpl. by rewrite Hexec. }
  split; [done|]. apply (Run_worker_failure _ _ s Hloop). by exists err.
Qed.

(** X5: when [Run] ends without having called the worker, it returns no
    reference and every reference allocated by the call is released. *)
Theorem Run_exit_before_worker e inputs :
  execCalls (Run e inputs).2 = [] →
  (∀ refs, (Run e inputs).1 ≠ Ok refs) ∧
  released (Run e inputs).2 = allocatedRefs (Run e inputs).2.
Proof.
  intros Hcalls. rewrite Run_execCalls in Hcalls.
  destruct (forM_ _ _ initial) as [r s] eqn:Hloop.
  assert (r ≠ Ok ()) as Hr by (by destruct r as [[]| |]).
  split; [|by apply (Run_setup_failure _ _ r s)].
  intros refs (s' & Hloop' & _)%Run_Ok_inv. congruence.
Qed.

(** X6: a successful call releases nothing and returns one reference for
    each mount that declares an output, in the order of the declarations:
    a shared clone of the input for a readonly mount of an input on
    another destination than the root, and a committed reference
    otherwise.  No returned reference is mutable. *)
Theorem Run_success_outputs e inputs refs :
  (Run e inputs).1 = Ok refs →
  released (Run e inputs).2 = [] ∧
  Forall2 (returnedFor inputs)
    (filter (λ m, pb.Output m ≠ pb_SkipOutput) (pb.Mounts (op e))) refs ∧
  Forall (λ r, asMutableRef r = None ∧ r ≠ Nil) refs.
Proof.
  intros Hok. split; [by apply (Run_success _ _ refs)|].
  apply Run_Ok_inv in Hok as (s & Hloop & _ & ->).
  apply forM_mountStep_Ok in Hloop as (_ & (outs & Houts & Hpend) & _).
  simpl in Houts. subst outs.
  assert (Forall2 (returnedFor inputs)
            (filter (λ m, pb.Output m ≠ pb_SkipOutput) (pb.Mounts (op e)))
            (committed <$> outputs s)) as Hret.
  { apply Forall2_fmap_r. eapply Forall2_impl; [exact Hpend|].
    intros m o. unfold pendingFor, returnedFor.
    destruct (clones inputs m); intros [n ->]; by exists n. }
  split; [done|].
  eapply Forall2_Forall_r; [exact Hret|]. apply Forall_forall. intros m _ r.
  unfold returnedFor. by destruct (clones inputs m); intros [n ->].
Qed.

(** X7: at every exit, no reference is released twice, and only
    references allocated by the call are released. *)
Theorem Run_releases_once e inputs :
  NoDup (released (Run e inputs).2) ∧
  released (Run e inputs).2 ⊆ allocatedRefs (Run e inputs).2.
Proof.
  destruct (Run_released e inputs) as (r & s & Hloop & k & more & -> & -> & _).
  split.
  - eapply sublist_NoDup; [|apply sublist_drop].
    apply (NoDup_fmap_1 allocRank).
    rewrite (forM_mountStep_allocRank _ _ _ _ _ _ Hloop eq_refl).
    apply NoDup_fmap_2; [by intros ?? [= ->]|apply NoDup_seq].
  - intros x Hx%subseteq_drop. apply elem_of_app. by left.
Qed.
End worker_call.

(** the end-to-end operation with a worker that fails, and with a mount
    of an input that is not there *)
Definition failingWorker : execOp :=
  {| op := {| pb.Meta_ := Ops.make;
              pb.Mounts := [Ops.mount 0 "" "/" 0 false; Ops.mount 1 "/app" "/src" 1 true] |};
     cm := Example.cm;
     w := {| worker.Exec := λ _ _ _, Some (External "exit status 1") |} |}.
Definition missingInput : execOp :=
  Ops.exec [Ops.mount 0 "" "/" 0 false; Ops.mount 5 "" "/src" (-1) true].

Definition endToEndCall : worker.Meta * Reference * list worker.Mount :=
  ({| worker.Args := ["make"; "all"]; worker.Env := ["PATH=/bin"]; worker.Cwd := "/" |},
   Active 0,
   [ {| worker.Src := Stored 1; worker.Dest := "/src";
        worker.Readonly := true; worker.Selector := "/app" |} ]).

Lemma endToEnd_execCalls :
  execCalls (@Run Ops.env Ops.endToEnd [Stored 0; Stored 1]).2 = [endToEndCall].
Proof. reflexivity. Qed.

Lemma Run_worker_only_after_setup_witness :
  execCalls (@Run Ops.env Ops.endToEnd [Stored 0; Stored 1]).2 = [endToEndCall] ∧
  ∀ m, m ∈ pb.Mounts (op Ops.endToEnd) →
    pb.Input m = @pb_Empty Ops.env ∨
    ∃ inp ref, index [Stored 0; Stored 1] (pb.Input m) = Ok inp
               ∧ toImmutableRef inp = Some ref.
Proof.
  assert (endToEndCall ∈ execCalls (@Run Ops.env Ops.endToEnd [Stored 0; Stored 1]).2) as Hc.
  { rewrite endToEnd_execCalls. left. }
  destruct (@Run_worker_only_after_setup Ops.env Ops.endToEnd [Stored 0; Stored 1]
              _ _ _ Hc) as (Hcalls & _ & _ & _ & Hres).
  split; [exact Hcalls|exact Hres].
Defined.

Lemma Run_worker_mounts_witness :
  mountShape <$> endToEndCall.2 ≡ₚ
    @auxMount Ops.env [Stored 0; Stored 1] <$>
      filter (λ m, pb.Dest m ≠ @pb_RootMount Ops.env) (pb.Mounts (op Ops.endToEnd)).
Proof.
  assert (endToEndCall ∈ execCalls (@Run Ops.env Ops.endToEnd [Stored 0; Stored 1]).2) as Hc.
  { rewrite endToEnd_execCalls. left. }
  exact (proj2 (@Run_worker_mounts Ops.env Ops.endToEnd [Stored 0; Stored 1] _ _ _ Hc)).
Defined.

(** a read-write scratch mount declared before the root mount *)
Definition scratchThenRoot : execOp :=
  Ops.exec [Ops.mount (-1) "" "/tmp" 1 false; Ops.mount 0 "" "/" 0 false].

Lemma Run_worker_root_witness :
  execCalls (@Run Ops.env scratchThenRoot [Stored 0]).2
  = [(metaOf scratchThenRoot, Active 1,
      [ {| worker.Src := Active 0; worker.Dest := "/tmp";
           worker.Readonly := false; worker.Selector := "" |} ])] ∧
  Active 1 = Active 1 ∧
  cache.New (cm scratchThenRoot) (Stored 0) "mount / from exec make all" 1 = None.
Proof.
  assert (execCalls (@Run Ops.env scratchThenRoot [Stored 0]).2
          = [(metaOf scratchThenRoot, Active 1,
              [ {| worker.Src := Active 0; worker.Dest := "/tmp";
                   worker.Readonly := false; worker.Selector := "" |} ])]) as Hcalls
    by reflexivity.
  split; [exact Hcalls|].
  assert ((metaOf scratchThenRoot, Active 1,
           [ {| worker.Src := Active 0; worker.Dest := "/tmp";
                worker.Readonly := false; worker.Selector := "" |} ])
          ∈ execCalls (@Run Ops.env scratchThenRoot [Stored 0]).2) as Hc
    by (rewrite Hcalls; left).
  exact (proj2 (@Run_worker_root Ops.env scratchThenRoot [Stored 0] _ _ _ Hc)
           [Ops.mount (-1) "" "/tmp" 1 false] (Ops.mount 0 "" "/" 0 false) []
           eq_refl eq_refl (Forall_nil_2 _)).
Defined.

Lemma Run_worker_failure_cleanup_witness :
  (@Run Ops.env failingWorker [Stored 0; Stored 1]).1
    = Err (WorkerFailed ["make"; "all"] (External "exit status 1")) ∧
  released (@Run Ops.env failingWorker [Stored 0; Stored 1]).2
    = [Active 0; SharedClone (Stored 1) 1].
Proof.
  assert ((metaOf failingWorker, Active 0,
           [ {| worker.Src := Stored 1; worker.Dest := "/src";
                worker.Readonly := true; worker.Selector := "/app" |} ])
          ∈ execCalls (@Run Ops.env failingWorker [Stored 0; Stored 1]).2) as Hc.
  { assert (execCalls (@Run Ops.env failingWorker [Stored 0; Stored 1]).2
            = [(metaOf failingWorker, Active 0,
                [ {| worker.Src := Stored 1; worker.Dest := "/src";
                     worker.Readonly := true; worker.Selector := "/app" |} ])]) as ->
      by reflexivity.
    left. }
  destruct (@Run_worker_failure_cleanup Ops.env failingWorker [Stored 0; Stored 1]
              _ _ _ (External "exit status 1") Hc eq_refl) as [Hres Hrel].
  split; [exact Hres|]. etransitivity; [exact Hrel|reflexivity].
Defined.

Lemma Run_exit_before_worker_witness :
  execCalls (@Run Ops.env missingInput [Stored 0]).2 = [] ∧
  released (@Run Ops.env missingInput [Stored 0]).2 = [Active 0].
Proof.
  split; [reflexivity|].
  etransitivity;
    [exact (proj2 (@Run_exit_before_worker Ops.env missingInput [Stored 0] eq_refl))|].
  reflexivity.
Defined.

Lemma Run_success_outputs_witness :
  (@Run Ops.env (Ops.exec [Ops.mount 0 "" "/" 0 false; Ops.mount 1 "/app" "/src" 1 true])
     [Stored 0; Stored 1]).1 = Ok [Committed 0; SharedClone (Stored 1) 1] ∧
  released (@Run Ops.env
     (Ops.exec [Ops.mount 0 "" "/" 0 false; Ops.mount 1 "/app" "/src" 1 true])
     [Stored 0; Stored 1]).2 = [].
Proof.
  split; [reflexivity|].
  exact (proj1 (@Run_success_outputs Ops.env
    (Ops.exec [Ops.mount 0 "" "/" 0 false; Ops.mount 1 "/app" "/src" 1 true])
    [Stored 0; Stored 1] _ eq_refl)).
Defined.

(** ** ContentKeys: the candidates and the skipped inputs *)

Section candidates.
Context `{Externals}.

Lemma skipped_foldl_classifyMount c ms :
  skipped (foldl classifyMount c ms) =
  skipped c ++
    (pb.Input <$> filter (λ m, pb.Input m ≠ pb_Empty ∧ qualifies m = false) ms).
Proof.
  revert c. induction ms as [|m ms IH]; intros c; simpl; [by rewrite app_nil_r|].
  rewrite IH, filter_cons. destruct (qualifies m) eqn:Hq.
  - rewrite classifyMount_qualifies by done. simpl.
    by rewrite decide_False by (by intros [_ ?]).
  - unfold classifyMount, qualifies in *.
    destruct (decide (pb.Input m ≠ pb_Empty)) as [Hi|Hi].
    + rewrite bool_decide_eq_true_2 in Hq by done. simpl in Hq. rewrite Hq. simpl.
      rewrite decide_True by done. by rewrite <- app_assoc.
    + by rewrite decide_False by (by intros [? _]).
Qed.

(** the skipped inputs: the inputs of the mounts that have one and do not
    qualify, in the order of the declarations *)
Lemma skipped_classify ms :
  skipped (classify ms) =
  pb.Input <$> filter (λ m, pb.Input m ≠ pb_Empty ∧ qualifies m = false) ms.
Proof. unfold classify. by rewrite skipped_foldl_classifyMount. Qed.

(** X8: every input a mount declares is accounted for in the refined
    keys: by its content checksum when the mount qualifies, and by its
    structural key otherwise. *)
Theorem ContentKeys_inputs_accounted (e : execOp) (iter : list nat) (m : pb.Mount) :
  m ∈ pb.Mounts (op e) → pb.Input m ≠ pb_Empty →
  if qualifies m
  then (pb.Input m, path_Join ["/"; pb.Selector m]) ∈ sortedSrcs (pb.Mounts (op e)) iter
  else pb.Input m ∈ skipped (classify (pb.Mounts (op e))).
Proof.
  intros Hm Hi. destruct (qualifies m) eqn:Hq.
  - apply elem_of_sortedSrcs. by exists m.
  - rewrite skipped_classify. apply list_elem_of_fmap. exists m. split; [done|].
    by apply list_elem_of_filter.
Qed.

(** X9: when [ContentKeys] returns keys for an operation with a
    qualifying mount and a non-empty list of references, every source has
    been resolved and hashed, and there is one key for each candidate, in
    the order of the candidates: the digest of the record of the
    checksums, the candidate's keys of the skipped inputs and the
    definition. *)
Theorem ContentKeys_Ok_inv (e : execOp) (iter : list nat)
    (inputs : list (list Digest)) (refs : list Reference) (out : list Digest) :
  refs ≠ [] →
  (∃ m, m ∈ pb.Mounts (op e) ∧ qualifies m = true) →
  ContentKeys e iter inputs refs = Ok out →
  ∃ dgsts,
    Forall2 (λ s d, ∃ r ref, index refs s.1 = Ok r ∧ toImmutableRef r = Some ref
                             ∧ contenthash_Checksum ref s.2 = Ok d)
      (sortedSrcs (pb.Mounts (op e)) iter) dgsts ∧
    Forall2 (keyFor e dgsts (skipped (classify (pb.Mounts (op e))))) inputs out ∧
    length out = length inputs.
Proof.
  intros Hrefs (m & Hm & Hq). unfold ContentKeys.
  rewrite decide_False by (by destruct refs).
  destruct (skip (classify (pb.Mounts (op e)))) eqn:Hskip.
  { by rewrite (proj1 (skip_classify _) Hskip m Hm) in Hq. }
  destruct (contentChecksums _ refs) as [dgsts| |] eqn:Hd; simpl; [|done..].
  intros Hout%forEach_Ok. exists dgsts.
  split; [by apply contentChecksums_Ok|]. split.
  - eapply Forall2_impl; [exact Hout|]. intros ck k. apply refinedKey_Ok.
  - symmetry. by eapply Forall2_length.
Qed.

Lemma forEach_returns {A B} (f : A → result B) l :
  (∀ a, a ∈ l → ∃ b, f a = Ok b) → ∃ bs, forEach f l = Ok bs.
Proof.
  induction l as [|a l IH]; intros Hf; simpl; [by eexists|].
  destruct (Hf a) as [b ->]; [left|]. destruct IH as [bs ->].
  { intros a' Ha'. apply Hf. by right. }
  simpl. by eexists.
Qed.

(** X10: [ContentKeys] returns keys, without an error and without a
    panic, when every qualifying mount's input is there, is storage
    backed and can be hashed, every candidate has a key for each skipped
    input, and the encoder does not fail. *)
Theorem ContentKeys_returns (e : execOp) (iter : list nat)
    (inputs : list (list Digest)) (refs : list Reference) :
  (∀ m, m ∈ pb.Mounts (op e) → qualifies m = true →
     ∃ r ref d, index refs (pb.Input m) = Ok r ∧ toImmutableRef r = Some ref ∧
                contenthash_Checksum ref (path_Join ["/"; pb.Selector m]) = Ok d) →
  (∀ cacheKeys m, cacheKeys ∈ inputs → m ∈ pb.Mounts (op e) →
     pb.Input m ≠ pb_Empty → qualifies m = false →
     ∃ key, index cacheKeys (pb.Input m) = Ok key) →
  (∀ v, ∃ dt, json_Marshal v = Ok dt) →
  ∃ out, ContentKeys e iter inputs refs = Ok out.
Proof.
  intros Hsrc Hkeys Hjson. unfold ContentKeys.
  destruct (decide (length refs = 0%nat)); [by eexists|].
  destruct (skip (classify (pb.Mounts (op e)))); [by eexists|].
  assert (∃ dgsts, contentChecksums (sortedSrcs (pb.Mounts (op e)) iter) refs = Ok dgsts)
    as [dgsts ->].
  { unfold contentChecksums.
    assert (∀ s, s ∈ sortedSrcs (pb.Mounts (op e)) iter →
              ∃ r ref d, index refs s.1 = Ok r ∧ toImmutableRef r = Some ref ∧
                         contenthash_Checksum ref s.2 = Ok d) as Hs.
    { intros s (m & Hm & Hq & ->)%elem_of_sortedSrcs. by apply Hsrc. }
    revert Hs. generalize (sortedSrcs (pb.Mounts (op e)) iter) as srcs.
    unfold src, pb.InputIndex in *.
    induction srcs as [|s srcs IH]; intros Hs; cbn [forEach]; [by eexists|].
    destruct (Hs s) as (r & ref & d & Hr & Href & Hd); [left|].
    destruct IH as [dgsts Hd']; [intros s' Hs'; apply Hs; by right|].
    rewrite Hr. simpl.
    destruct (forEach _ srcs) as [args| |]; simpl in *; [|done..].
    assert (checksumTask s r = Ok d) as -> by (unfold checksumTask; by rewrite Href).
    simpl. rewrite Hd'. simpl. by eexists. }
  simpl. apply forEach_returns. intros cacheKeys Hck.
  setoid_rewrite refinedKey_Ok. unfold keyFor.
  destruct (forEach_returns (index cacheKeys) (skipped (classify (pb.Mounts (op e)))))
    as [inputKeys Hik].
  { rewrite skipped_classify.
    intros i (m & -> & [Hi Hq]%list_elem_of_filter)%list_elem_of_fmap.
    destruct Hi as [Hi Hq']. by apply (Hkeys cacheKeys m). }
  destruct (Hjson (ContentKeyRecord execCacheType dgsts inputKeys (op e))) as [dt Hdt].
  exists (digest_FromBytes dt), inputKeys, dt. by rewrite <- forEach_Ok.
Qed.

(** X11: the refined keys depend on a candidate only through its keys of
    the skipped inputs. *)
Theorem ContentKeys_candidate_keys_used (e : execOp) (iter : list nat)
    (inputs1 inputs2 : list (list Digest)) (refs : list Reference) :
  Forall2 (λ keys1 keys2,
             ∀ i, i ∈ skipped (classify (pb.Mounts (op e))) → index keys1 i = index keys2 i)
    inputs1 inputs2 →
  ContentKeys e iter inputs1 refs = ContentKeys e iter inputs2 refs.
Proof.
  intros Hsame. unfold ContentKeys.
  destruct (decide (length refs = 0%nat)); [done|].
  destruct (skip (classify (pb.Mounts (op e)))); [done|].
  destruct (contentChecksums _ refs) as [dgsts| |]; simpl; [|done..].
  induction Hsame as [|keys1 keys2 l1 l2 Hk Hl IH]; [done|].
  assert (refinedKey e dgsts (skipped (classify (pb.Mounts (op e)))) keys1
          = refinedKey e dgsts (skipped (classify (pb.Mounts (op e)))) keys2) as Heq.
  { unfold refinedKey. by rewrite (forEach_ext (index keys1) (index keys2)). }
  cbn [forEach]. by rewrite Heq, IH.
Qed.
End candidates.

Lemma ContentKeys_inputs_accounted_witness :
  (1, "/app") ∈ @sortedSrcs Ops.env (pb.Mounts (op Ops.endToEnd)) [] ∧
  0 ∈ skipped (@classify Ops.env (pb.Mounts (op Ops.endToEnd))).
Proof.
  split.
  - refine (@ContentKeys_inputs_accounted Ops.env Ops.endToEnd []
              (Ops.mount 1 "/app" "/src" (-1) true) _ _).
    + simpl. right. left.
    + discriminate.
  - refine (@ContentKeys_inputs_accounted Ops.env Ops.endToEnd []
              (Ops.mount 0 "" "/" 0 false) _ _).
    + simpl. left.
    + discriminate.
Defined.

Lemma ContentKeys_Ok_inv_witness :
  ∃ out, @ContentKeys Ops.env Ops.endToEnd [] [["k0"; "k1"]; ["k2"; "k3"]]
           [Stored 0; Stored 1] = Ok out ∧
         length out = 2%nat.
Proof.
  eexists. split; [by vm_compute|].
  edestruct (@ContentKeys_Ok_inv Ops.env Ops.endToEnd [] [["k0"; "k1"]; ["k2"; "k3"]]
               [Stored 0; Stored 1]) as (dgsts & _ & _ & Hlen).
  - discriminate.
  - exists (Ops.mount 1 "/app" "/src" (-1) true). split; [simpl; right; left|reflexivity].
  - by vm_compute.
  - exact Hlen.
Defined.

Lemma ContentKeys_returns_witness :
  ∃ out, @ContentKeys Ops.env Ops.endToEnd [] [["k0"; "k1"]] [Stored 0; Stored 1] = Ok out.
Proof.
  apply (@ContentKeys_returns Ops.env).
  - intros m Hm Hq. simpl in Hm.
    apply elem_of_cons in Hm as [->|Hm]; [discriminate Hq|].
    apply elem_of_cons in Hm as [->|Hm]; [|by apply elem_of_nil in Hm].
    exists (Stored 1), (Stored 1), "sha256:sources:/app". repeat split; reflexivity.
  - intros cacheKeys m Hck Hm Hi Hq.
    apply list_elem_of_singleton in Hck as ->. simpl in Hm.
    apply elem_of_cons in Hm as [->|Hm]; [by exists "k0"|].
    apply elem_of_cons in Hm as [->|Hm]; [discriminate Hq|by apply elem_of_nil in Hm].
  - intros v. eexists. reflexivity.
Defined.

Lemma ContentKeys_candidate_keys_used_witness :
  @ContentKeys Ops.env Ops.endToEnd [] [["k0"; "k1"]] [Stored 0; Stored 1]
  = @ContentKeys Ops.env Ops.endToEnd [] [["k0"; "other"; "more"]] [Stored 0; Stored 1].
Proof.
  apply (@ContentKeys_candidate_keys_used Ops.env).
  constructor; [|constructor]. intros i Hi.
  change (i ∈ [0]) in Hi. apply list_elem_of_singleton in Hi as ->. reflexivity.
Defined.


(** ** Progress notification: what is left as it is *)

(** [f] leaves the vertices that are started as they are *)
Definition keepsStarted (f : ptr → world → option world) : Prop :=
  ∀ v wd wd', f v wd = Some wd' → ∀ p, started wd p → heap wd' p = heap wd p.

Lemma notifyCompletedWith_keepsStarted f v cached err wd wd' :
  keepsStarted f →
  notifyCompletedWith f v cached err wd = Some wd' →
  ∀ p, p ≠ v → started wd p → heap wd' p = heap wd p.
Proof.
  intros Hf. unfold notifyCompletedWith.
  destruct (f v (tick wd)) as [wd1|] eqn:Hrmc; simpl; [|done].
  intros [= <-] p Hne Hp. simpl. rewrite decide_False by done.
  by apply (Hf _ _ _ Hrmc).
Qed.

Lemma recursiveMarkCached_keepsStarted fuel : keepsStarted (recursiveMarkCached fuel).
Proof.
  induction fuel as [|fuel IH]; intros v wd wd'; simpl; [done|].
  generalize (inputs (heap wd v)) as l. intros l. revert wd.
  induction l as [|inp l IHl]; intros wd; simpl; [by intros [= <-]|].
  destruct (client.Started (clientVertex (heap wd (input_vertex inp)))) as [t|] eqn:Hst;
    simpl; [by apply IHl|].
  destruct (recursiveMarkCached fuel (input_vertex inp) wd) as [wd1|] eqn:H1; simpl; [|done].
  destruct (notifyCompletedWith _ _ _ _ wd1) as [wd2|] eqn:H2; simpl; [|done].
  intros Hl p Hp.
  assert (p ≠ input_vertex inp) as Hne.
  { intros ->. unfold started in Hp. by rewrite Hst in Hp. }
  pose proof (IH _ _ _ H1 p Hp) as Hp1.
  assert (started wd1 p) as Hs1 by (unfold started; by rewrite Hp1).
  pose proof (notifyCompletedWith_keepsStarted _ _ _ _ _ _ IH H2 p Hne Hs1) as Hp2.
  assert (started wd2 p) as Hs2 by (unfold started; by rewrite Hp2).
  by rewrite (IHl _ Hl p Hs2), Hp2.
Qed.

(** X12: [notifyStarted] and [notifyCompleted] of a vertex leave every
    other vertex that is already started as it is. *)
Theorem notify_keeps_started (fuel : nat) (v p : ptr) (wd : world) :
  p ≠ v → started wd p →
  (∀ wd', notifyStarted fuel v wd = Some wd' → heap wd' p = heap wd p) ∧
  (∀ cached err wd', notifyCompleted fuel v cached err wd = Some wd' →
     heap wd' p = heap wd p).
Proof.
  intros Hne Hp. split.
  - intros wd'. unfold notifyStarted.
    destruct (recursiveMarkCached fuel v wd) as [wd1|] eqn:Hrmc; simpl; [|done].
    intros [= <-]. simpl. rewrite decide_False by done.
    by apply (recursiveMarkCached_keepsStarted _ _ _ _ Hrmc).
  - intros cached err wd' Hc.
    by apply (notifyCompletedWith_keepsStarted _ _ _ _ _ _
                (recursiveMarkCached_keepsStarted fuel) Hc).
Qed.

(** when every input is started, [recursiveMarkCached] does nothing *)
Lemma recursiveMarkCached_inputs_started fuel v wd :
  (∀ i, i ∈ inputs (heap wd v) → started wd (input_vertex i)) →
  recursiveMarkCached (S fuel) v wd = Some wd.
Proof.
  simpl. generalize (inputs (heap wd v)) as l.
  induction l as [|inp l IHl]; intros Hl; simpl; [done|].
  destruct (client.Started (clientVertex (heap wd (input_vertex inp)))) as [t|] eqn:Hst.
  - simpl. apply IHl. intros i Hi. apply Hl. by right.
  - destruct (Hl inp) as []; [left|done].
Qed.

(** X13: once [recursiveMarkCached] of a vertex has returned, another
    call changes nothing and writes no event. *)
Theorem recursiveMarkCached_again (fuel : nat) (v : ptr) (wd wd' : world) :
  recursiveMarkCached fuel v wd = Some wd' →
  recursiveMarkCached fuel v wd' = Some wd'.
Proof.
  intros Hrmc.
  destruct (recursiveMarkCached_marks wd fuel v wd [] wd' (Inv_init wd) Hrmc)
    as (tr & Hinv & _ & Hin).
  destruct fuel as [|fuel]; [done|].
  apply recursiveMarkCached_inputs_started.
  rewrite (proj1 (inv_graph _ _ _ Hinv v)). exact Hin.
Qed.

(** X14: [notifyCompleted] after [notifyStarted] of the same vertex
    writes one event, for the vertex: it keeps the time the vertex was
    started at and sets the time of completion, the cached flag and the
    text of the error. *)
Theorem notifyStarted_then_notifyCompleted (fuel : nat) (v : ptr)
    (cached : bool) (err : option string) (wd wd1 : world) :
  notifyStarted fuel v wd = Some wd1 →
  ∃ wd2 cv,
    notifyCompleted fuel v cached err wd1 = Some wd2 ∧
    progress wd2 = progress wd1 ++ [(digest (heap wd v), cv)] ∧
    clientVertex (heap wd2 v) = cv ∧
    client.Started cv = client.Started (clientVertex (heap wd1 v)) ∧
    client.Started cv ≠ None ∧
    client.Completed cv = Some (clock wd1) ∧
    client.Cached cv = cached ∧
    client.Error cv = (if err is Some text then text
                       else client.Error (clientVertex (heap wd1 v))).
Proof.
  unfold notifyStarted.
  destruct (recursiveMarkCached fuel v wd) as [wd0|] eqn:Hrmc; simpl; [|done].
  intros [= <-].
  destruct (recursiveMarkCached_marks wd fuel v wd [] wd0 (Inv_init wd) Hrmc)
    as (tr & Hinv & _ & Hin).
  destruct fuel as [|fuel]; [done|].
  unfold notifyCompleted, notifyCompletedWith.
  rewrite recursiveMarkCached_inputs_started.
  - simpl. rewrite decide_True by done. simpl.
    eexists _, _. split; [reflexivity|]. simpl. rewrite decide_True by done. simpl.
    rewrite (proj2 (inv_graph _ _ _ Hinv v)).
    repeat split; by destruct err.
  - intros i Hi. simpl in Hi. rewrite decide_True in Hi by done. simpl in Hi.
    rewrite (proj1 (inv_graph _ _ _ Hinv v)) in Hi.
    unfold started. simpl. destruct (decide (input_vertex i = v)) as [->|]; [done|].
    by apply Hin.
Qed.

(** the fields of the progress record that say which vertex it is of *)
Definition sameIdentity (cv cv' : client.Vertex) : Prop :=
  client.Digest cv' = client.Digest cv ∧ client.Inputs cv' = client.Inputs cv ∧
  client.Name cv' = client.Name cv.

Lemma recursiveMarkCached_identity fuel v wd wd' :
  recursiveMarkCached fuel v wd = Some wd' →
  ∀ p, sameIdentity (clientVertex (heap wd p)) (clientVertex (heap wd' p)).
Proof.
  revert v wd wd'. induction fuel as [|fuel IH]; intros v wd wd'; simpl; [done|].
  generalize (inputs (heap wd v)) as l. intros l. revert wd.
  induction l as [|inp l IHl]; intros wd; simpl; [by intros [= <-]|].
  destruct (client.Started (clientVertex (heap wd (input_vertex inp)))); simpl;
    [by apply IHl|].
  destruct (recursiveMarkCached fuel (input_vertex inp) wd) as [wd1|] eqn:H1; simpl; [|done].
  unfold notifyCompletedWith.
  destruct (recursiveMarkCached fuel (input_vertex inp) (tick wd1)) as [wd2|] eqn:H2;
    simpl; [|done].
  intros Hrest p.
  destruct (IH _ _ _ H1 p) as (Hd1 & Hi1 & Hn1).
  destruct (IH _ _ _ H2 p) as (Hd2 & Hi2 & Hn2). simpl in *.
  destruct (IHl _ Hrest p) as (Hd3 & Hi3 & Hn3). simpl in *.
  unfold sameIdentity. rewrite Hd3, Hi3, Hn3.
  destruct (decide (p = input_vertex inp)) as [->|]; simpl;
    [|by rewrite Hd2, Hi2, Hn2].
  destruct (client.Started (clientVertex (heap wd2 (input_vertex inp)))); simpl;
    by rewrite Hd2, Hi2, Hn2.
Qed.

(** X17: on an acyclic graph [notifyStarted] of a vertex whose progress
    record was set up by [initClientVertex] returns, and the last event
    it writes is the started event of the vertex: it is written under
    the digest of the vertex and carries its digest, its name and the
    digests of its inputs, in their order. *)
Theorem notifyStarted_event_identity (rank : ptr → nat) (fuel : nat) (v : ptr)
    (wd : world) :
  (∀ p i, i ∈ inputs (heap wd p) → (rank (input_vertex i) < rank p)%nat) →
  (rank v < fuel)%nat →
  ∃ wd' evs cv,
    notifyStarted fuel v (initClientVertex v wd) = Some wd' ∧
    progress wd' = progress wd ++ evs ++ [(digest (heap wd v), cv)] ∧
    clientVertex (heap wd' v) = cv ∧
    client.Started cv ≠ None ∧ client.Completed cv = None ∧
    client.Digest cv = digest (heap wd v) ∧
    client.Name cv = name (heap wd v) ∧
    client.Inputs cv = (λ inp, digest (heap wd (input_vertex inp))) <$> inputs (heap wd v).
Proof.
  intros Hacyc Hfuel. unfold notifyStarted.
  assert (sameGraph wd (initClientVertex v wd)) as Hg.
  { intros p. simpl. by destruct (decide (p = v)) as [->|]. }
  destruct (recursiveMarkCached_returns wd rank Hacyc fuel v _ Hg Hfuel)
    as (wd1 & Hrmc & Hg1).
  rewrite Hrmc. simpl.
  destruct (recursiveMarkCached_marks _ fuel v _ [] wd1 (Inv_init _) Hrmc)
    as (tr & Hinv & _ & _).
  destruct (recursiveMarkCached_identity _ _ _ _ Hrmc v) as (Hd & Hi & Hn).
  simpl in Hd, Hi, Hn. rewrite decide_True in Hd, Hi, Hn by done. simpl in Hd, Hi, Hn.
  exists (pw_Write (digest (heap (tick wd1) v))
            (setCompleted None (setStarted (Some (clock wd1)) (clientVertex (heap wd1 v))))
            (setClientVertex v
               (setCompleted None
                  (setStarted (Some (clock wd1)) (clientVertex (heap wd1 v))))
               (tick wd1))), tr,
    (setCompleted None (setStarted (Some (clock wd1)) (clientVertex (heap wd1 v)))).
  split; [done|]. simpl. rewrite decide_True by done. simpl.
  split; [|by rewrite Hd, Hi, Hn].
  rewrite (inv_progress _ _ _ Hinv), (proj2 (Hg1 v)). simpl. by rewrite app_assoc.
Qed.

(** ** Progress notification on an acyclic graph *)

Section acyclic_graph.
(** the world when the outermost call starts: its graph is acyclic *)
Variable wd0 : world.
Variable rank : ptr → nat.
Hypothesis acyclic :
  ∀ p i, i ∈ inputs (heap wd0 p) → (rank (input_vertex i) < rank p)%nat.

(** [f] of a vertex changes vertices of lower rank only *)
Definition belowOnly (f : ptr → world → option world) : Prop :=
  ∀ v wd wd', sameGraph wd0 wd → f v wd = Some wd' →
    sameGraph wd0 wd' ∧ ∀ p, (rank v ≤ rank p)%nat → heap wd' p = heap wd p.

Lemma recursiveMarkCached_belowOnly fuel : belowOnly (recursiveMarkCached fuel).
Proof.
  induction fuel as [|fuel IH]; intros v wd wd' Hg; simpl; [done|].
  rewrite (proj1 (Hg v)).
  assert (∀ i, i ∈ inputs (heap wd0 v) → (rank (input_vertex i) < rank v)%nat) as Hl
    by (intros i Hi; by apply acyclic).
  revert Hl. generalize (inputs (heap wd0 v)) as l. intros l. revert wd Hg.
  induction l as [|inp l IHl]; intros wd Hg Hl; simpl; [by intros [= <-]|].
  assert (rank (input_vertex inp) < rank v)%nat as Hinp by (apply Hl; left).
  assert (∀ i, i ∈ l → (rank (input_vertex i) < rank v)%nat) as Hl'
    by (intros i Hi; apply Hl; by right).
  destruct (client.Started (clientVertex (heap wd (input_vertex inp)))); simpl;
    [by apply IHl|].
  destruct (recursiveMarkCached fuel (input_vertex inp) wd) as [wd1|] eqn:H1; simpl; [|done].
  destruct (IH _ _ _ Hg H1) as [Hg1 Hb1].
  unfold notifyCompletedWith.
  destruct (recursiveMarkCached fuel (input_vertex inp) (tick wd1)) as [wd2|] eqn:H2;
    simpl; [|done].
  destruct (IH _ (tick wd1) _ Hg1 H2) as [Hg2 Hb2]. simpl in Hb2.
  intros Hrest. eapply IHl in Hrest as [Hg' Hb']; [|..|done].
  - split; [done|]. intros p Hp. rewrite Hb' by done. simpl.
    rewrite decide_False by (intros ->; lia).
    rewrite Hb2, Hb1 by lia. done.
  - intros p. simpl. destruct (decide (p = input_vertex inp)) as [->|]; simpl; apply Hg2.
Qed.

(** X15: on an acyclic graph [notifyCompleted] of a vertex returns and
    writes, after the events of the inputs it marks, one event for the
    vertex itself: completed now, with the cached flag and the error it
    is given, and started at the time recorded before or, when there is
    none, now. *)
Theorem notifyCompleted_event (fuel : nat) (v : ptr) (cached : bool)
    (err : option string) :
  (rank v < fuel)%nat →
  ∃ wd' pre cv,
    notifyCompleted fuel v cached err wd0 = Some wd' ∧
    progress wd' = progress wd0 ++ pre ++ [(digest (heap wd0 v), cv)] ∧
    Forall (λ ev, completedCached ev.2) pre ∧
    clientVertex (heap wd' v) = cv ∧
    client.Completed cv = Some (clock wd0) ∧
    client.Cached cv = cached ∧
    client.Started cv =
      Some (default (clock wd0) (client.Started (clientVertex (heap wd0 v)))) ∧
    client.Error cv =
      (if err is Some text then text else client.Error (clientVertex (heap wd0 v))).
Proof.
  intros Hfuel. unfold notifyCompleted, notifyCompletedWith.
  destruct (recursiveMarkCached_returns wd0 rank acyclic fuel v (tick wd0))
    as (wd1 & Hrmc & Hg1); [done|done|].
  rewrite Hrmc. simpl.
  destruct (recursiveMarkCached_belowOnly fuel v (tick wd0) wd1) as [_ Hb]; [done|done|].
  destruct (recursiveMarkCached_marks wd0 fuel v (tick wd0) [] wd1
              (Inv_tick _ _ _ (Inv_init wd0)) Hrmc) as (pre & Hinv & _ & _).
  simpl in Hinv. rewrite (Hb v) by done. simpl.
  eexists _, pre, _. split; [reflexivity|]. simpl.
  rewrite decide_True by done. simpl.
  rewrite (inv_progress _ _ _ Hinv), <- app_assoc.
  split; [done|]. split; [exact (inv_events _ _ _ Hinv)|].
  repeat split; destruct err,
    (client.Started (clientVertex (heap wd0 v))) eqn:Hs; simpl; by rewrite ?Hs.
Qed.

(** digests tell the vertices apart *)
Hypothesis digest_inj :
  ∀ p q, digest (heap wd0 p) = digest (heap wd0 q) → p = q.

(** the events [tr] written between [wd] and [wd']: each reports a vertex
    of rank below [r] that was not started in [wd] and is started in
    [wd'], and no digest is reported twice *)
Definition reports (r : nat) (wd wd' : world) (tr : list (string * client.Vertex)) : Prop :=
  Forall (λ ev, ∃ p, ev.1 = digest (heap wd0 p) ∧ (rank p < r)%nat ∧
                     ¬ started wd p ∧ started wd' p) tr ∧
  NoDup tr.*1.

Lemma reports_nil r wd : reports r wd wd [].
Proof. split; constructor. Qed.

Lemma reports_app r wd1 wd2 wd3 tr1 tr2 :
  monotone wd1 wd2 → monotone wd2 wd3 →
  reports r wd1 wd2 tr1 → reports r wd2 wd3 tr2 → reports r wd1 wd3 (tr1 ++ tr2).
Proof.
  intros H12 H23 [Hf1 Hn1] [Hf2 Hn2]. split.
  - apply Forall_app. split.
    + eapply Forall_impl; [exact Hf1|]. intros ev (p & ? & ? & ? & ?). exists p. eauto.
    + eapply Forall_impl; [exact Hf2|]. intros ev (p & ? & ? & Hn & ?).
      exists p. repeat split; try done. intros Hp. by apply Hn, H12.
  - rewrite fmap_app. apply NoDup_app. split; [done|]. split; [|done].
    intros d (ev1 & -> & Hev1)%list_elem_of_fmap (ev2 & Heq & Hev2)%list_elem_of_fmap.
    rewrite Forall_forall in Hf1, Hf2.
    destruct (Hf1 _ Hev1) as (p1 & Hd1 & _ & _ & Hs1).
    destruct (Hf2 _ Hev2) as (p2 & Hd2 & _ & Hn2' & _).
    assert (p1 = p2) as ->; [|done]. apply digest_inj.
    etransitivity; [symmetry; exact Hd1|]. etransitivity; [exact Heq|exact Hd2].
Qed.

Lemma reports_weaken r r' wd wd' tr :
  (r ≤ r')%nat → reports r wd wd' tr → reports r' wd wd' tr.
Proof.
  intros Hr [Hf Hn]. split; [|done].
  eapply Forall_impl; [exact Hf|]. intros ev (p & ? & ? & ? & ?).
  exists p. repeat split; try done. lia.
Qed.

Lemma keepsStarted_monotone f v wd wd' :
  keepsStarted f → f v wd = Some wd' → monotone wd wd'.
Proof. intros Hf Hv p Hp. unfold started. by rewrite (Hf _ _ _ Hv p Hp). Qed.

Definition reportsBelow (f : ptr → world → option world) : Prop :=
  ∀ v wd wd', sameGraph wd0 wd → f v wd = Some wd' →
    ∃ tr, progress wd' = progress wd ++ tr ∧ reports (rank v) wd wd' tr.

Lemma recursiveMarkCached_reportsBelow fuel : reportsBelow (recursiveMarkCached fuel).
Proof.
  induction fuel as [|fuel IH]; intros v wd wd' Hg; simpl; [done|].
  rewrite (proj1 (Hg v)).
  assert (∀ i, i ∈ inputs (heap wd0 v) → (rank (input_vertex i) < rank v)%nat) as Hl
    by (intros i Hi; by apply acyclic).
  revert Hl. generalize (inputs (heap wd0 v)) as l. intros l Hl Hloop.
  enough (∃ tr, progress wd' = progress wd ++ tr ∧ reports (rank v) wd wd' tr
                ∧ monotone wd wd') as (tr & ? & ? & _) by (by exists tr).
  revert wd Hg Hl Hloop.
  induction l as [|inp l IHl]; intros wd Hg Hl; simpl.
  { intros [= <-]. exists []. rewrite app_nil_r. split; [done|].
    split; [apply reports_nil|by intros p Hp]. }
  assert (rank (input_vertex inp) < rank v)%nat as Hinp by (apply Hl; left).
  assert (∀ i, i ∈ l → (rank (input_vertex i) < rank v)%nat) as Hl'
    by (intros i Hi; apply Hl; by right).
  destruct (client.Started (clientVertex (heap wd (input_vertex inp)))) eqn:Hst; simpl;
    [by apply IHl|].
  destruct (recursiveMarkCached fuel (input_vertex inp) wd) as [wd1|] eqn:H1; simpl; [|done].
  destruct (IH _ _ _ Hg H1) as (tr1 & Hp1 & Hr1).
  destruct (recursiveMarkCached_belowOnly fuel _ _ _ Hg H1) as [Hg1 Hb1].
  pose proof (keepsStarted_monotone _ _ _ _ (recursiveMarkCached_keepsStarted fuel) H1) as Hm1.
  unfold notifyCompletedWith.
  destruct (recursiveMarkCached fuel (input_vertex inp) (tick wd1)) as [wd2|] eqn:H2;
    simpl; [|done].
  destruct (IH _ (tick wd1) _ Hg1 H2) as (tr2 & Hp2 & Hr2).
  destruct (recursiveMarkCached_belowOnly fuel _ (tick wd1) _ Hg1 H2) as [Hg2 Hb2].
  pose proof (keepsStarted_monotone _ _ _ _ (recursiveMarkCached_keepsStarted fuel) H2) as Hm2.
  simpl in Hb2, Hp2.
  set (cv := setCached true (setCompleted (Some (clock wd1))
       (if client.Started (clientVertex (heap wd2 (input_vertex inp))) is Some _
        then clientVertex (heap wd2 (input_vertex inp))
        else setStarted (Some (clock wd1)) (clientVertex (heap wd2 (input_vertex inp)))))).
  set (wd3 := pw_Write _ cv (setClientVertex (input_vertex inp) cv wd2)).
  assert (sameGraph wd0 wd3) as Hg3.
  { intros p. simpl. destruct (decide (p = input_vertex inp)) as [->|]; simpl; apply Hg2. }
  assert (started wd3 (input_vertex inp)) as Hs3.
  { unfold started. simpl. rewrite decide_True by done. simpl. unfold cv. simpl.
    by destruct (client.Started (clientVertex (heap wd2 (input_vertex inp)))) eqn:Hs;
      simpl; rewrite ?Hs. }
  assert (monotone wd2 wd3) as Hm3.
  { intros p Hp. destruct (decide (p = input_vertex inp)) as [->|Hne]; [done|].
    unfold started. simpl. by rewrite decide_False. }
  assert (¬ started wd2 (input_vertex inp)) as Hn2.
  { unfold started. rewrite Hb2, Hb1 by done. by rewrite Hst; intros []. }
  assert (reports (rank v) wd2 wd3 [(digest (heap wd2 (input_vertex inp)), cv)]) as Hr3.
  { split; [|apply NoDup_singleton].
    apply Forall_singleton. exists (input_vertex inp). simpl.
    split; [apply Hg2|]. by repeat split. }
  intros Hrest. destruct (IHl _ Hg3 Hl' Hrest) as (tr3 & Hp3 & Hr3' & Hm4).
  exists (tr1 ++ tr2 ++ [(digest (heap wd2 (input_vertex inp)), cv)] ++ tr3).
  split.
  { rewrite Hp3. simpl. rewrite Hp2, Hp1. by rewrite <- !app_assoc. }
  split.
  - apply (reports_app _ wd wd1 wd'); [done|..].
    + intros p Hp. by apply Hm4, Hm3, Hm2.
    + eapply reports_weaken; [|exact Hr1]. lia.
    + apply (reports_app _ wd1 wd2 wd'); [done|..].
      * intros p Hp. by apply Hm4, Hm3.
      * eapply reports_weaken; [|exact Hr2]. lia.
      * by apply (reports_app _ wd2 wd3 wd').
  - intros p Hp. by apply Hm4, Hm3, Hm2, Hm1.
Qed.

(** X16: on an acyclic graph whose digests tell the vertices apart,
    [notifyStarted] writes no two events under the same digest: every
    vertex it marks as completed from cache is reported once, and none of
    them is the vertex itself. *)
Theorem notifyStarted_reports_once (fuel : nat) (v : ptr) (wd' : world) :
  notifyStarted fuel v wd0 = Some wd' →
  ∃ evs, progress wd' = progress wd0 ++ evs ∧ NoDup evs.*1.
Proof.
  unfold notifyStarted.
  destruct (recursiveMarkCached fuel v wd0) as [wd1|] eqn:Hrmc; simpl; [|done].
  intros [= <-].
  destruct (recursiveMarkCached_reportsBelow fuel v wd0 wd1) as (pre & Hp & Hf & Hn);
    [done|done|].
  destruct (recursiveMarkCached_belowOnly fuel v wd0 wd1) as [Hg1 _]; [done|done|].
  eexists (pre ++ [_]). simpl. rewrite Hp, <- app_assoc. split; [done|].
  rewrite fmap_app. apply NoDup_app. split; [done|]. split; [|apply NoDup_singleton].
  intros d (ev & -> & Hev)%list_elem_of_fmap Hd. simpl in Hd.
  apply list_elem_of_singleton in Hd.
  rewrite Forall_forall in Hf. destruct (Hf _ Hev) as (p & Hdp & Hrank & _).
  rewrite (proj2 (Hg1 v)) in Hd.
  assert (p = v) as ->; [|lia]. apply digest_inj.
  etransitivity; [symmetry; exact Hdp|exact Hd].
Qed.
End acyclic_graph.

(** the chain once more, with every vertex of the heap under a digest of
    its own, and the world in which A has been started *)
Module Numbered.
Definition graph (p : ptr) : vertex :=
  Chain.node ("sha256:" +:+ pretty p) ("v" +:+ pretty p)
    match p with
    | 1 => [0]
    | 2 => [1]
    | _ => []
    end%nat.
Definition start : world := {| heap := graph; clock := 0%nat; progress := [] |}.
Definition rank (p : ptr) : nat := p.

Lemma graph_acyclic p i : i ∈ inputs (heap start p) → (rank (input_vertex i) < rank p)%nat.
Proof.
  destruct p as [|[|[|p]]]; simpl; intros Hi.
  - by apply elem_of_nil in Hi.
  - apply list_elem_of_singleton in Hi as ->. cbv. lia.
  - apply list_elem_of_singleton in Hi as ->. cbv. lia.
  - by apply elem_of_nil in Hi.
Qed.

Lemma graph_digest_inj p q : digest (heap start p) = digest (heap start q) → p = q.
Proof.
  simpl. intros Hd. apply (inj pretty).
  by apply (inj (String.append "sha256:")) in Hd.
Qed.
End Numbered.

Lemma notify_keeps_started_witness :
  ∃ wd1, notifyStarted 1 Chain.A Chain.start = Some wd1 ∧
    ∀ wd', notifyStarted 3 Chain.C wd1 = Some wd' → heap wd' Chain.A = heap wd1 Chain.A.
Proof.
  eexists. split; [reflexivity|].
  refine (proj1 (notify_keeps_started 3 Chain.C Chain.A _ _ _)).
  - discriminate.
  - unfold started. simpl. discriminate.
Defined.

Lemma recursiveMarkCached_again_witness :
  ∃ wd', recursiveMarkCached 3 Chain.C Chain.start = Some wd' ∧
         recursiveMarkCached 3 Chain.C wd' = Some wd'.
Proof.
  eexists. split; [reflexivity|].
  apply (recursiveMarkCached_again 3 Chain.C Chain.start). reflexivity.
Defined.

Lemma notifyStarted_then_notifyCompleted_witness :
  ∃ wd1 wd2 cv,
    notifyStarted 3 Chain.C Chain.start = Some wd1 ∧
    notifyCompleted 3 Chain.C false (Some "exit status 1") wd1 = Some wd2 ∧
    progress wd2 = progress wd1 ++ [("sha256:c", cv)] ∧
    client.Started cv = Some 2%nat ∧ client.Completed cv = Some 3%nat ∧
    client.Error cv = "exit status 1".
Proof.
  eexists.
  edestruct (notifyStarted_then_notifyCompleted 3 Chain.C false (Some "exit status 1")
               Chain.start) as (wd2 & cv & Hc & Hp & _ & Hs & _ & Hd & _ & He);
    [reflexivity|].
  exists wd2, cv. split; [reflexivity|]. split; [exact Hc|]. split; [exact Hp|].
  split; [exact Hs|]. split; [exact Hd|exact He].
Defined.

Lemma notifyCompleted_event_witness :
  ∃ wd' pre cv,
    notifyCompleted 3 Chain.C true None Chain.start = Some wd' ∧
    progress wd' = pre ++ [("sha256:c", cv)] ∧
    client.Started cv = Some 0%nat ∧ client.Completed cv = Some 0%nat.
Proof.
  assert (∀ p i, i ∈ inputs (heap Chain.start p) →
            (id (input_vertex i) < id p)%nat) as Hacyc.
  { intros [|[|[|p]]] i Hi; simpl in Hi.
    - by apply elem_of_nil in Hi.
    - apply list_elem_of_singleton in Hi as ->. cbv. lia.
    - apply list_elem_of_singleton in Hi as ->. cbv. lia.
    - by apply elem_of_nil in Hi. }
  destruct (notifyCompleted_event Chain.start id Hacyc 3 Chain.C true None)
    as (wd' & pre & cv & Hc & Hp & _ & _ & Hd & _ & Hs & _); [cbv; lia|].
  exists wd', pre, cv. split; [exact Hc|]. split; [exact Hp|].
  split; [exact Hs|exact Hd].
Defined.

Lemma notifyStarted_reports_once_witness :
  ∃ wd' evs, notifyStarted 3 2%nat Numbered.start = Some wd' ∧
    progress wd' = evs ∧ NoDup evs.*1.
Proof.
  eexists.
  edestruct (notifyStarted_reports_once Numbered.start Numbered.rank
               Numbered.graph_acyclic Numbered.graph_digest_inj 3 2%nat) as (evs & Hp & Hn);
    [reflexivity|].
  exists evs. split; [reflexivity|]. split; [exact Hp|exact Hn].
Defined.

Lemma notifyStarted_event_identity_witness :
  ∃ wd' evs cv,
    notifyStarted 3 1%nat (initClientVertex 1%nat Numbered.start) = Some wd' ∧
    progress wd' = evs ++ [("sha256:1", cv)] ∧
    client.Inputs cv = ["sha256:0"] ∧ client.Name cv = "v1".
Proof.
  destruct (notifyStarted_event_identity Numbered.rank 3 1%nat Numbered.start
              Numbered.graph_acyclic)
    as (wd' & evs & cv & Hs & Hp & _ & _ & _ & _ & Hn & Hi); [cbv; lia|].
  exists wd', evs, cv. split; [exact Hs|]. split; [exact Hp|].
  split; [exact Hi|exact Hn].
Defined.
